(** * StockGraphix: the interactive MST correlation-network view

    A shallow embedding of [drawMSTGraph] (script.js, lines 706-902): the
    node-set builder, the circular layout, the canvas repaint
    [redrawGraph], and the three pointer handlers (mousemove, mouseleave,
    click), followed by the properties the specification states about them.

    JavaScript numbers are IEEE-754 binary64 values; they are modelled by
    Rocq's primitive floats, whose [+ - * /], [sqrt] and comparisons are the
    correctly rounded IEEE operations.  [Math.cos], [Math.sin], text metrics
    and the shortest-digits printing of huge numbers are left to the engine by
    ECMAScript; they are fields of the [Runtime] interface below.

    The canvas is modelled by what the drawing calls leave on it: each
    stroke, fill and text with the path and the styles in force when it ran.
    The view throws in one way only, by reading [x] of a position that is
    [undefined]; computations that may do so return a [result].

    The text side follows: [parseCSV] (lines 32-49), the mapping of the
    edge file to [stockData.mstEdges] (lines 125-138) and the reading of a
    price history (lines 555-586), with [parseFloat] left to the engine. *)

From Stdlib Require Import ZArith Floats Reals Lra DecimalString.
From stdpp Require Import gmap strings list sorting.

Set Warnings "-inexact-float,-clear-no-such-hyp".

(** ** JavaScript values used by the view *)

Module JS.

(** The engine- and browser-defined functions the view calls. *)
Class Runtime := {
  Math_cos : float → float;
  Math_sin : float → float;
  (** [ctx.measureText(text).width] under the font [font]. *)
  measureText_width : string → string → float;
  (** [Number.prototype.toString], used by [toFixed] from 1e21 upwards. *)
  Number_toString : float → string
}.

(** A value that is either [undefined] or a number (an edge's [distance]
    is read through [isNaN], which accepts both). *)
Inductive jsval :=
| undefined
| num (n : float).

(** ToNumber: [undefined] converts to NaN. *)
Definition ToNumber (v : jsval) : float :=
  match v with
  | undefined => nan
  | num n => n
  end.

(** The global [isNaN(v)]: ToNumber, then the NaN test. *)
Definition isNaN (v : jsval) : bool := is_nan (ToNumber v).

(** [v !== 0]: strict inequality with the number zero ([-0 === 0] holds,
    NaN is different from everything, [undefined] is no number). *)
Definition strict_ne_zero (v : jsval) : bool :=
  match v with
  | undefined => true
  | num n => negb (n =? 0)%float
  end.

(** Truthiness of a value that is [null] or a string: [null] and the empty
    string are falsy. *)
Definition truthy (s : option string) : bool :=
  match s with
  | None => false
  | Some s => negb (String.eqb s "")
  end.

(** [a === b] on values that are [null] or strings. *)
Definition strict_eq (a b : option string) : bool := bool_decide (a = b).

Definition Math_PI : float := 0x1.921fb54442d18p+1%float.

Definition Math_sqrt (a : float) : float := PrimFloat.sqrt a.

Definition Math_abs (a : float) : float := PrimFloat.abs a.

(** [a ** 2], the correctly rounded square. *)
Definition sq (a : float) : float := (a * a)%float.

(** [Math.max(a, b)]: NaN if either is NaN; [+0] is larger than [-0]. *)
Definition Math_max (a b : float) : float :=
  if is_nan a || is_nan b then nan
  else if (a <? b)%float then b
  else if (b <? a)%float then a
  else if get_sign a then b else a.

(** [Math.min(a, b)]: NaN if either is NaN; [-0] is smaller than [+0]. *)
Definition Math_min (a b : float) : float :=
  if is_nan a || is_nan b then nan
  else if (a <? b)%float then a
  else if (b <? a)%float then b
  else if get_sign a then a else b.

(** An array index or length as a number (exact below 2^53; array lengths
    stay below 2^32). *)
Definition Number_of_nat (i : nat) : float :=
  PrimFloat.of_uint63 (Uint63.of_Z (Z.of_nat i)).

(** [s.replace(pat, rep)] with a string pattern: the first occurrence only. *)
Fixpoint String_replace (pat rep s : string) : string :=
  if String.prefix pat s
  then rep +:+ String.substring (String.length pat)
                 (String.length s - String.length pat) s
  else match s with
       | EmptyString => EmptyString
       | String c s' => String c (String_replace pat rep s')
       end.

(** The decimal digits of [n], at least [width] of them (zero padded). *)
Definition digits_of (n : N) (width : nat) : string :=
  let d := NilZero.string_of_uint (N.to_uint n) in
  let d := if String.eqb d "" then "0"%string else d in
  String.concat "" (replicate (width - String.length d) "0"%string) +:+ d.

(** [n / 10^f] printed with exactly [f] decimals. *)
Definition fixed_point (n : N) (f : nat) : string :=
  let d := digits_of n (S f) in
  let k := (String.length d - f)%nat in
  match f with
  | O => d
  | _ => String.substring 0 k d +:+ "." +:+ String.substring k f d
  end.

(** The integer [n] for which [n / 10^f - m * 2^e] is closest to zero, the
    larger one on a tie (Number.prototype.toFixed, step 10.a). *)
Definition nearest_scaled (m : positive) (e : Z) (f : nat) : N :=
  let a := (Z.pos m * 10 ^ Z.of_nat f)%Z in
  if (0 <=? e)%Z then Z.to_N (a * 2 ^ e)
  else Z.to_N ((2 * a + 2 ^ (- e)) / 2 ^ (1 - e)).

(** [x.toFixed(f)] for [0 <= f <= 100]. *)
Definition toFixed `{Runtime} (x : float) (f : nat) : string :=
  match Prim2SF x with
  | S754_nan => "NaN"
  | S754_infinity s => if s then "-Infinity" else "Infinity"
  | S754_zero _ => fixed_point 0 f
  | S754_finite s m e =>
      if (1e21 <=? PrimFloat.abs x)%float then Number_toString x
      else (if s then "-" else "") +:+ fixed_point (nearest_scaled m e f) f
  end%string.

End JS.
Import JS.

(** ** Data loaded by the dashboard *)

(** A row of [stockData.mstEdges].  The loader stores the text of the
    [u] and [v] fields (the empty string for a blank field) and
    [parseFloat(...) || 0] for [corr] and [distance]; the renderer also
    guards against a [distance] that is absent. *)
Record Edge := {
  u : string;
  v : string;
  corr : float;
  distance : jsval
}.

(** A row of [stockData.recommendations] (the fields the graph reads). *)
Record Recommendation := {
  ticker : string;
  momentum : float;
  label : string
}.

Record StockData := {
  recommendations : list Recommendation;
  mstEdges : list Edge
}.

(** A value of [graphPositions], and a pointer position in canvas units. *)
Record Point := {
  x : float;
  y : float
}.

(** ** The 2D drawing surface *)

(** A string assigned as a colour: a literal, or the template
    [rgba(r, g, b, alpha)] with a computed alpha. *)
Inductive Style :=
| css (colour : string)
| rgba (r g b : nat) (alpha : float).

Inductive Segment :=
| MoveTo (px py : float)
| LineTo (px py : float)
| Arc (cx cy r startAngle endAngle : float).

(** The drawing state that [save] and [restore] keep. *)
Record DrawState := {
  strokeStyle : Style;
  lineWidth : float;
  fillStyle : Style;
  font : string;
  textAlign : string;
  textBaseline : string
}.

(** What a drawing call leaves on the surface, with the styles in force
    when it ran. *)
Inductive Paint :=
| Stroked (path : list Segment) (style : Style) (width : float)
| Filled (path : list Segment) (style : Style)
| FilledRect (rx ry rw rh : float) (style : Style)
| FilledText (text : string) (tx ty : float) (style : Style)
    (fnt align baseline : string)
| Cleared (rx ry rw rh : float).

(** A canvas element with its 2D context: the intrinsic size, the current
    state, the stack of saved states, the current path and the surface
    contents, oldest first. *)
Record Canvas := {
  width : float;
  height : float;
  state : DrawState;
  saved : list DrawState;
  path : list Segment;
  pixels : list Paint
}.

(** A context as [getContext('2d')] returns it for a new canvas. *)
Definition defaultState : DrawState :=
  {| strokeStyle := css "#000000"; lineWidth := 1; fillStyle := css "#000000";
     font := "10px sans-serif"; textAlign := "start";
     textBaseline := "alphabetic" |}.

Definition createCanvas (w h : float) : Canvas :=
  {| width := w; height := h; state := defaultState; saved := [];
     path := []; pixels := [] |}.

(** ** Computations that draw and may throw *)

Inductive result (A : Type) :=
| Ok (a : A)
| TypeError.
Arguments Ok {A} a.
Arguments TypeError {A}.

(** A computation on the context [graphCtx]. *)
Definition Draw (A : Type) : Type := Canvas → result (A * Canvas).

#[export] Instance Draw_ret : MRet Draw := λ A a c, Ok (a, c).

#[export] Instance Draw_bind : MBind Draw := λ A B f m c,
  match m c with
  | Ok (a, c') => f a c'
  | TypeError => TypeError
  end.

(** Reading a property of [undefined] throws. *)
Definition throw {A} : Draw A := λ _, TypeError.

Definition modify (f : Canvas → Canvas) : Draw unit := λ c, Ok (tt, f c).

Definition with_state (f : DrawState → DrawState) : Draw unit :=
  modify (λ c, {| width := width c; height := height c; state := f (state c);
                  saved := saved c; path := path c; pixels := pixels c |}).

Definition with_path (f : list Segment → list Segment) : Draw unit :=
  modify (λ c, {| width := width c; height := height c; state := state c;
                  saved := saved c; path := f (path c); pixels := pixels c |}).

Definition paint (p : Canvas → Paint) : Draw unit :=
  modify (λ c, {| width := width c; height := height c; state := state c;
                  saved := saved c; path := path c;
                  pixels := pixels c ++ [p c] |}).

(** Whether a string assigned to [strokeStyle] or [fillStyle] parses as a
    CSS colour.  The literals of the view all do; the template does when
    its alpha prints as a number, that is unless it is NaN or infinite. *)
Definition valid_style (s : Style) : bool :=
  match s with
  | css _ => true
  | rgba _ _ _ alpha => is_finite alpha
  end.

(** An assignment of a string that is no colour is ignored.  (The other
    properties are only ever assigned literals the context accepts.) *)
Definition set_strokeStyle (s : Style) : Draw unit :=
  if valid_style s
  then with_state (λ d, {| strokeStyle := s; lineWidth := lineWidth d;
         fillStyle := fillStyle d; font := font d; textAlign := textAlign d;
         textBaseline := textBaseline d |})
  else mret tt.

Definition set_lineWidth (w : float) : Draw unit :=
  with_state (λ d, {| strokeStyle := strokeStyle d; lineWidth := w;
    fillStyle := fillStyle d; font := font d; textAlign := textAlign d;
    textBaseline := textBaseline d |}).

Definition set_fillStyle (s : Style) : Draw unit :=
  if valid_style s
  then with_state (λ d, {| strokeStyle := strokeStyle d;
         lineWidth := lineWidth d; fillStyle := s; font := font d;
         textAlign := textAlign d; textBaseline := textBaseline d |})
  else mret tt.

Definition set_font (f : string) : Draw unit :=
  with_state (λ d, {| strokeStyle := strokeStyle d; lineWidth := lineWidth d;
    fillStyle := fillStyle d; font := f; textAlign := textAlign d;
    textBaseline := textBaseline d |}).

Definition set_textAlign (a : string) : Draw unit :=
  with_state (λ d, {| strokeStyle := strokeStyle d; lineWidth := lineWidth d;
    fillStyle := fillStyle d; font := font d; textAlign := a;
    textBaseline := textBaseline d |}).

Definition set_textBaseline (b : string) : Draw unit :=
  with_state (λ d, {| strokeStyle := strokeStyle d; lineWidth := lineWidth d;
    fillStyle := fillStyle d; font := font d; textAlign := textAlign d;
    textBaseline := b |}).

(** The path and the paints are kept as the calls that made them, with the
    arguments as passed.  The surface ignores a path or drawing call that
    is passed NaN or an infinite number: such a call shows here with that
    argument. *)
Definition beginPath : Draw unit := with_path (λ _, []).

Definition moveTo (px py : float) : Draw unit :=
  with_path (λ p, p ++ [MoveTo px py]).

Definition lineTo (px py : float) : Draw unit :=
  with_path (λ p, p ++ [LineTo px py]).

Definition arc (cx cy r a0 a1 : float) : Draw unit :=
  with_path (λ p, p ++ [Arc cx cy r a0 a1]).

Definition stroke : Draw unit :=
  paint (λ c, Stroked (path c) (strokeStyle (state c)) (lineWidth (state c))).

Definition fill : Draw unit :=
  paint (λ c, Filled (path c) (fillStyle (state c))).

Definition fillRect (rx ry rw rh : float) : Draw unit :=
  paint (λ c, FilledRect rx ry rw rh (fillStyle (state c))).

Definition fillText (text : string) (tx ty : float) : Draw unit :=
  paint (λ c, FilledText text tx ty (fillStyle (state c)) (font (state c))
                (textAlign (state c)) (textBaseline (state c))).

(** Whether the rectangle covers the whole canvas. *)
Definition covers (c : Canvas) (rx ry rw rh : float) : bool :=
  ((rx <=? 0) && (ry <=? 0) && (width c <=? rx + rw)
   && (height c <=? ry + rh))%float.

(** [clearRect]: a rectangle over the whole canvas leaves it blank; a
    smaller one erases on top of what is there. *)
Definition clearRect (rx ry rw rh : float) : Draw unit :=
  modify (λ c, {| width := width c; height := height c; state := state c;
                  saved := saved c; path := path c;
                  pixels := if covers c rx ry rw rh then []
                            else pixels c ++ [Cleared rx ry rw rh] |}).

Definition save : Draw unit :=
  modify (λ c, {| width := width c; height := height c; state := state c;
                  saved := state c :: saved c; path := path c;
                  pixels := pixels c |}).

(** [restore] pops the saved state; with nothing saved it does nothing. *)
Definition restore : Draw unit :=
  modify (λ c, match saved c with
               | [] => c
               | d :: rest =>
                   {| width := width c; height := height c; state := d;
                      saved := rest; path := path c; pixels := pixels c |}
               end).

Definition measureText `{Runtime} (text : string) : Draw float :=
  λ c, Ok (measureText_width (font (state c)) text, c).

(** [list.forEach(body)] for a body that draws. *)
Fixpoint forEach {A} (body : A → Draw unit) (l : list A) : Draw unit :=
  match l with
  | [] => mret tt
  | a :: rest => body a ;; forEach body rest
  end.

(** ** The graph builder (script.js, lines 732-752) *)

(** [set.add(a)] on a [Set] kept in insertion order. *)
Definition Set_add (s : list string) (a : string) : list string :=
  if bool_decide (a ∈ s) then s else s ++ [a].

(** [nodes] after the loop over [stockData.mstEdges], as [Array.from]
    lists it. *)
Definition collectNodes (edges : list Edge) : list string :=
  foldl (λ nodes edge, Set_add (Set_add nodes (u edge)) (v edge)) [] edges.

(** The canvas is created 800 by 500; [width] and [height] of
    [drawMSTGraph] are read from it once. *)
Definition graphWidth : float := 800.
Definition graphHeight : float := 500.

Definition centerX : float := (graphWidth / 2)%float.
Definition centerY : float := (graphHeight / 2)%float.
Definition radius : float := (Math_min graphWidth graphHeight * 0.35)%float.

(** [angle] for the node at index [i] of [n]. *)
Definition nodeAngle (i n : nat) : float :=
  ((2 * Math_PI * Number_of_nat i) / Number_of_nat n)%float.

Definition nodePosition `{Runtime} (i n : nat) : Point :=
  {| x := (centerX + radius * Math_cos (nodeAngle i n))%float;
     y := (centerY + radius * Math_sin (nodeAngle i n))%float |}.

(** [graphNodeList.forEach((node, i) => graphPositions[node] = ...)], from
    index [i] on; [n] is [graphNodeList.length]. *)
Fixpoint placeNodes `{Runtime} (n i : nat) (nodes : list string)
    (graphPositions : gmap string Point) : gmap string Point :=
  match nodes with
  | [] => graphPositions
  | node :: rest =>
      placeNodes n (S i) rest (<[node := nodePosition i n]> graphPositions)
  end.

(** ** Reading [graphPositions]

    [graphPositions] is a plain object made by [{}].  The map holds what
    the layout loop assigned: an own property for every name but
    [__proto__], whose assignment makes the position the prototype of the
    object instead (and [graphPositions.__proto__] reads it back).  A name
    that was not assigned reads what the object inherits. *)

(** The members of [Object.prototype]: functions, and under [__proto__]
    the prototype itself. *)
Definition Object_prototype : list string :=
  ["constructor"; "hasOwnProperty"; "isPrototypeOf"; "propertyIsEnumerable";
   "toLocaleString"; "toString"; "valueOf"; "__proto__";
   "__defineGetter__"; "__defineSetter__"; "__lookupGetter__";
   "__lookupSetter__"].

(** What [graphPositions[name]] evaluates to: [undefined], a number, or an
    object, kept as its [x] and [y] read as numbers (NaN where the object
    has no such property). *)
Inductive Reading :=
| Undefined
| Primitive (n : float)
| Reference (pos : Point).

Definition readPosition (graphPositions : gmap string Point) (name : string)
    : Reading :=
  match graphPositions !! name with
  | Some pos => Reference pos
  | None =>
      if bool_decide (name ∈ Object_prototype)
      then Reference {| x := nan; y := nan |}
      else match graphPositions !! "__proto__"%string with
           | Some proto =>
               if String.eqb name "x" then Primitive (x proto)
               else if String.eqb name "y" then Primitive (y proto)
               else Undefined
           | None => Undefined
           end
  end.

(** Truthiness: [undefined], NaN and both zeros are falsy. *)
Definition ToBoolean (r : Reading) : bool :=
  match r with
  | Undefined => false
  | Primitive n => negb (is_nan n || (n =? 0)%float)
  | Reference _ => true
  end.

(** [pos.x] and [pos.y] as numbers.  Reading a property of [undefined]
    throws ([None]); a number has neither property. *)
Definition coordinates (r : Reading) : option Point :=
  match r with
  | Undefined => None
  | Primitive _ => Some {| x := nan; y := nan |}
  | Reference pos => Some pos
  end.

(** ** The repaint (script.js, lines 755-862) *)

(** The font every label uses, for a size: [<size> "Segoe UI", sans-serif]. *)
Definition Segoe (size : string) : string :=
  let q := String (Ascii.ascii_of_nat 34) EmptyString in
  size +:+ " " +:+ q +:+ "Segoe UI" +:+ q +:+ ", sans-serif".

(** [isHighlighted], as a condition. *)
Definition isHighlighted (hoveredNode : option string) (edge : Edge) : bool :=
  truthy hoveredNode
  && (strict_eq (Some (u edge)) hoveredNode
      || strict_eq (Some (v edge)) hoveredNode).

Definition edgeAlpha (hoveredNode : option string) (edge : Edge) : float :=
  let corr := Math_abs (corr edge) in
  if isHighlighted hoveredNode edge then 1.0%float else Math_max 0.3 corr.

Definition edgeLineWidth (hoveredNode : option string) (edge : Edge) : float :=
  if isHighlighted hoveredNode edge then 3%float else 2%float.

(** [weightValue]: distance preferred, fallback to correlation. *)
Definition weightValue (edge : Edge) : jsval :=
  if negb (isNaN (distance edge)) && strict_ne_zero (distance edge)
  then distance edge
  else num (corr edge).

(** The label of an edge, drawn at its midpoint over a dark patch. *)
Definition drawEdgeLabel `{Runtime} (hoveredNode : option string) (edge : Edge)
    (pu pv : Point) : Draw unit :=
  let weightValue := weightValue edge in
  if negb (isNaN weightValue) then
    let midX := ((x pu + x pv) / 2)%float in
    let midY := ((y pu + y pv) / 2)%float in
    let label := toFixed (ToNumber weightValue) 2 in
    save ;;
    set_font (Segoe "10px") ;;
    textWidth ← measureText label ;
    let padding := 4%float in
    set_fillStyle (css "rgba(13, 17, 23, 0.85)") ;;
    fillRect (midX - textWidth / 2 - padding)%float (midY - 8)%float
             (textWidth + padding * 2)%float 16 ;;
    set_fillStyle (css (if isHighlighted hoveredNode edge
                        then "#58a6ff" else "#8b949e")) ;;
    set_textAlign "center" ;;
    set_textBaseline "middle" ;;
    fillText label midX midY ;;
    restore
  else mret tt.

(** What [if (u && v)] guards: the line of an edge and its label. *)
Definition strokeEdge `{Runtime} (hoveredNode : option string) (edge : Edge)
    (pu pv : Point) : Draw unit :=
  set_strokeStyle (rgba 88 166 255 (edgeAlpha hoveredNode edge)) ;;
  set_lineWidth (edgeLineWidth hoveredNode edge) ;;
  beginPath ;;
  moveTo (x pu) (y pu) ;;
  lineTo (x pv) (y pv) ;;
  stroke ;;
  drawEdgeLabel hoveredNode edge pu pv.

(** The body of the loop over [stockData.mstEdges]. *)
Definition drawEdge `{Runtime} (graphPositions : gmap string Point)
    (hoveredNode : option string) (edge : Edge) : Draw unit :=
  let u := readPosition graphPositions (u edge) in
  let v := readPosition graphPositions (v edge) in
  if ToBoolean u && ToBoolean v then
    match coordinates u, coordinates v with
    | Some pu, Some pv => strokeEdge hoveredNode edge pu pv
    | _, _ => throw
    end
  else mret tt.

(** Node colour based on the recommendation. *)
Definition nodeColor (label : string) : string :=
  let nodeColor := "#8b949e" in
  let nodeColor := if String.eqb label "BUY" then "#3fb950" else nodeColor in
  let nodeColor := if String.eqb label "AVOID" then "#f85149" else nodeColor in
  nodeColor.

(** The two extra lines under a hovered node. *)
Definition drawNodeInfo `{Runtime} (stock : Recommendation) (pos : Point)
    : Draw unit :=
  let momentumPercent := toFixed (momentum stock * 100)%float 2 in
  let sign := if (0 <=? momentum stock)%float then "+" else "" in
  set_fillStyle (css "#8b949e") ;;
  set_font (Segoe "10px") ;;
  fillText (sign +:+ momentumPercent +:+ "%") (x pos) (y pos + 35)%float ;;
  fillText (label stock) (x pos) (y pos + 48)%float.

(** The body of the loop over [graphNodeList].  [pos.x] is first read
    when the circle is drawn; a node whose position is [undefined] throws
    there. *)
Definition drawNode `{Runtime} (data : StockData)
    (graphPositions : gmap string Point) (hoveredNode : option string)
    (node : string) : Draw unit :=
  let stock :=
    List.find (λ s, String.eqb (ticker s) node) (recommendations data) in
  let label := match stock with Some s => label s | None => "HOLD" end in
  let isHovered := strict_eq hoveredNode (Some node) in
  let nodeRadius := if isHovered then 20%float else 15%float in
  set_fillStyle (css (nodeColor label)) ;;
  beginPath ;;
  match coordinates (readPosition graphPositions node) with
  | None => throw
  | Some pos =>
      arc (x pos) (y pos) nodeRadius 0 (2 * Math_PI)%float ;;
      fill ;;
      set_strokeStyle (css (if isHovered then "#58a6ff" else "#161b22")) ;;
      set_lineWidth (if isHovered then 3%float else 2%float) ;;
      stroke ;;
      set_fillStyle (css (if isHovered then "#58a6ff" else "#e6edf3")) ;;
      set_font (if isHovered then Segoe "bold 13px" else Segoe "12px") ;;
      set_textAlign "center" ;;
      set_textBaseline "middle" ;;
      let displayName := String_replace ".NS" "" node in
      fillText displayName (x pos) (y pos - 30)%float ;;
      match stock with
      | Some stock => if isHovered then drawNodeInfo stock pos else mret tt
      | None => mret tt
      end
  end.

(** The legend in the lower left corner. *)
Definition drawLegend (height : float) : Draw unit :=
  set_fillStyle (css "#8b949e") ;;
  set_font (Segoe "11px") ;;
  set_textAlign "left" ;;
  fillText "BUY" 20 (height - 50)%float ;;
  fillText "HOLD" 20 (height - 35)%float ;;
  fillText "AVOID" 20 (height - 20)%float ;;
  set_fillStyle (css "#3fb950") ;;
  beginPath ;;
  arc 10 (height - 50)%float 5 0 (2 * Math_PI)%float ;;
  fill ;;
  set_fillStyle (css "#8b949e") ;;
  beginPath ;;
  arc 10 (height - 35)%float 5 0 (2 * Math_PI)%float ;;
  fill ;;
  set_fillStyle (css "#f85149") ;;
  beginPath ;;
  arc 10 (height - 20)%float 5 0 (2 * Math_PI)%float ;;
  fill.

Definition redrawGraph `{Runtime} (data : StockData)
    (graphPositions : gmap string Point) (graphNodeList : list string)
    (hoveredNode : option string) : Draw unit :=
  clearRect 0 0 graphWidth graphHeight ;;
  forEach (drawEdge graphPositions hoveredNode) (mstEdges data) ;;
  forEach (drawNode data graphPositions hoveredNode) graphNodeList ;;
  drawLegend graphHeight.

(** ** The view: module-level state and the pointer handlers *)

(** What the view calls: its own [redrawGraph], and [showStockDetails]
    of the search panel. *)
Inductive Call :=
| RedrawGraph
| ShowStockDetails (node : string).

#[export] Instance Call_eq_dec : EqDecision Call.
Proof. solve_decision. Defined.

(** The globals [graphCanvas]/[graphCtx] ([null] until the canvas is
    created), [graphPositions], [graphNodeList], [hoveredNode], and the
    calls made so far, oldest first. *)
Record View := {
  graphCanvas : option Canvas;
  graphPositions : gmap string Point;
  graphNodeList : list string;
  hoveredNode : option string;
  calls : list Call
}.

(** The state when the script is loaded. *)
Definition initialView : View :=
  {| graphCanvas := None; graphPositions := ∅; graphNodeList := [];
     hoveredNode := None; calls := [] |}.

Definition set_hoveredNode (h : option string) (st : View) : View :=
  {| graphCanvas := graphCanvas st; graphPositions := graphPositions st;
     graphNodeList := graphNodeList st; hoveredNode := h;
     calls := calls st |}.

Definition record_call (c : Call) (st : View) : View :=
  {| graphCanvas := graphCanvas st; graphPositions := graphPositions st;
     graphNodeList := graphNodeList st; hoveredNode := hoveredNode st;
     calls := calls st ++ [c] |}.

(** A call of [redrawGraph()]: it draws on [graphCtx] from the globals. *)
Definition callRedrawGraph `{Runtime} (data : StockData) (st : View)
    : result View :=
  match graphCanvas st with
  | None => TypeError
  | Some c =>
      match redrawGraph data (graphPositions st) (graphNodeList st)
              (hoveredNode st) c with
      | Ok (_, c') =>
          Ok (record_call RedrawGraph
                {| graphCanvas := Some c'; graphPositions := graphPositions st;
                   graphNodeList := graphNodeList st;
                   hoveredNode := hoveredNode st; calls := calls st |})
      | TypeError => TypeError
      end
  end.

(** [drawMSTGraph()].  [placeholder] tells whether the document has a
    [.graph-placeholder] element. *)
Definition drawMSTGraph `{Runtime} (placeholder : bool) (data : StockData)
    (st : View) : result View :=
  if negb placeholder || (length (mstEdges data) =? 0)%nat then Ok st
  else
    let canvas := createCanvas graphWidth graphHeight in
    let nodes := collectNodes (mstEdges data) in
    callRedrawGraph data
      {| graphCanvas := Some canvas;
         graphPositions :=
           placeNodes (length nodes) 0 nodes (graphPositions st);
         graphNodeList := nodes;
         hoveredNode := hoveredNode st;
         calls := calls st |}.

(** [canvas.getBoundingClientRect()]. *)
Module DOMRect.
Record t := {
  left : float;
  top : float;
  width : float;
  height : float
}.
End DOMRect.

Record MouseEvent := {
  clientX : float;
  clientY : float
}.

(** The pointer in canvas units: client coordinates relative to the
    displayed rectangle, scaled by intrinsic over displayed size. *)
Definition pointerPosition (canvas : Canvas) (rect : DOMRect.t)
    (e : MouseEvent) : Point :=
  let scaleX := (width canvas / DOMRect.width rect)%float in
  let scaleY := (height canvas / DOMRect.height rect)%float in
  {| x := ((clientX e - DOMRect.left rect) * scaleX)%float;
     y := ((clientY e - DOMRect.top rect) * scaleY)%float |}.

(** [distance] from the pointer to a node position. *)
Definition pointerDistance (pointer pos : Point) : float :=
  Math_sqrt (sq (x pointer - x pos) + sq (y pointer - y pos))%float.

(** [distance <= 20]. *)
Definition isHit (pointer pos : Point) : bool :=
  (pointerDistance pointer pos <=? 20)%float.

(** The hit-test loop: [foundNode] is overwritten by every node within
    reach; a node whose position is [undefined] throws ([pos.x]). *)
Fixpoint findNode (graphPositions : gmap string Point) (pointer : Point)
    (nodes : list string) (foundNode : option string)
    : result (option string) :=
  match nodes with
  | [] => Ok foundNode
  | node :: rest =>
      match coordinates (readPosition graphPositions node) with
      | None => TypeError
      | Some pos =>
          findNode graphPositions pointer rest
            (if isHit pointer pos then Some node else foundNode)
      end
  end.

(** The mousemove listener.  Listeners sit on the canvas: without a
    canvas no event arrives. *)
Definition onMouseMove `{Runtime} (data : StockData) (rect : DOMRect.t)
    (e : MouseEvent) (st : View) : result View :=
  match graphCanvas st with
  | None => Ok st
  | Some canvas =>
      let pointer := pointerPosition canvas rect e in
      match findNode (graphPositions st) pointer (graphNodeList st) None with
      | TypeError => TypeError
      | Ok foundNode =>
          if negb (strict_eq foundNode (hoveredNode st))
          then callRedrawGraph data (set_hoveredNode foundNode st)
          else Ok st
      end
  end.

(** The mouseleave listener. *)
Definition onMouseLeave `{Runtime} (data : StockData) (st : View)
    : result View :=
  match graphCanvas st with
  | None => Ok st
  | Some _ => callRedrawGraph data (set_hoveredNode None st)
  end.

(** The click listener. *)
Definition onClick (st : View) : View :=
  match graphCanvas st with
  | None => st
  | Some _ =>
      if truthy (hoveredNode st)
      then match hoveredNode st with
           | Some node => record_call (ShowStockDetails node) st
           | None => st
           end
      else st
  end.

Inductive Event :=
| MouseMove (rect : DOMRect.t) (e : MouseEvent)
| MouseLeave
| Click.

Definition dispatch `{Runtime} (data : StockData) (ev : Event) (st : View)
    : result View :=
  match ev with
  | MouseMove rect e => onMouseMove data rect e st
  | MouseLeave => onMouseLeave data st
  | Click => Ok (onClick st)
  end.

(** Events handled one after the other; an exception ends the run. *)
Fixpoint dispatchAll `{Runtime} (data : StockData) (evs : list Event)
    (st : View) : result View :=
  match evs with
  | [] => Ok st
  | ev :: rest =>
      match dispatch data ev st with
      | Ok st' => dispatchAll data rest st'
      | TypeError => TypeError
      end
  end.

(** How often a call occurs in the trace. *)
Definition redraws (st : View) : nat :=
  length (filter (λ c, c = RedrawGraph) (calls st)).

Definition selections (st : View) : nat :=
  length (filter (λ c, c ≠ RedrawGraph) (calls st)).

(** ** A runtime to run the model *)

(** One engine to run the examples on: cosine and sine by their Taylor
    series around [Math.PI] (the layout asks for angles in [0, 2 * Math.PI)),
    a fixed-pitch font six units wide, and a printing of huge numbers that
    the examples never reach. *)
Module Demo.

(** [1 - t2/(k (k+1)) * (1 - t2/((k+2) (k+3)) * ...)], [terms] deep. *)
Fixpoint series (t2 k : float) (terms : nat) : float :=
  match terms with
  | O => 1%float
  | S terms' => (1 - t2 / (k * (k + 1)) * series t2 (k + 2) terms')%float
  end.

Definition cos (a : float) : float :=
  let t := (a - Math_PI)%float in (- series (t * t) 1 18)%float.

Definition sin (a : float) : float :=
  let t := (a - Math_PI)%float in (- (t * series (t * t) 2 18))%float.

#[export] Instance runtime : Runtime :=
  {| Math_cos := cos;
     Math_sin := sin;
     measureText_width :=
       λ _ text, (6 * Number_of_nat (String.length text))%float;
     Number_toString := λ _, "1e+21"%string |}.

(** The scenario of the specification: edges A-B and B-C, with the
    recommendations BUY, HOLD and AVOID. *)
Definition edges : list Edge :=
  [ {| u := "A"; v := "B"; corr := 0.8; distance := num 0.3 |};
    {| u := "B"; v := "C"; corr := -0.6; distance := num 0.5 |} ].

Definition data : StockData :=
  {| recommendations :=
       [ {| ticker := "A"; momentum := 0.02; label := "BUY" |};
         {| ticker := "B"; momentum := 0; label := "HOLD" |};
         {| ticker := "C"; momentum := -0.03; label := "AVOID" |} ];
     mstEdges := edges |}.

(** The view once [drawMSTGraph] has run on the freshly loaded page. *)
Definition view : View :=
  match drawMSTGraph true data initialView with
  | Ok st => st
  | TypeError => initialView
  end.

Definition canvas : Canvas :=
  match graphCanvas view with
  | Some c => c
  | None => createCanvas graphWidth graphHeight
  end.

(** The canvas displayed at its intrinsic size in the page corner, and at
    half that size further down the page. *)
Definition fullRect : DOMRect.t :=
  {| DOMRect.left := 0; DOMRect.top := 0;
     DOMRect.width := 800; DOMRect.height := 500 |}.

Definition halfRect : DOMRect.t :=
  {| DOMRect.left := 10; DOMRect.top := 20;
     DOMRect.width := 400; DOMRect.height := 250 |}.

(** A file whose only row has an empty first ticker: the loader stores the
    empty string for it. *)
Definition blankData : StockData :=
  {| recommendations := [];
     mstEdges := [ {| u := ""; v := "AAPL"; corr := 0.5;
                      distance := num 0.7 |} ] |}.

Definition blankView : View :=
  match drawMSTGraph true blankData initialView with
  | Ok st => st
  | TypeError => initialView
  end.

End Demo.

(** ** The layout read over the real numbers *)

(** The expressions of the layout with exact arithmetic: what the
    floating-point positions round. *)
Module Exact.

Definition centerX : R := (800 / 2)%R.
Definition centerY : R := (500 / 2)%R.
Definition radius : R := (Rmin 800 500 * 0.35)%R.

Definition nodeAngle (i n : nat) : R := ((2 * PI * INR i) / INR n)%R.

Definition nodePosition (i n : nat) : R * R :=
  ((centerX + radius * cos (nodeAngle i n))%R,
   (centerY + radius * sin (nodeAngle i n))%R).


End Exact.

(** ** The specification's wording

    What the specification says the builder, the hit test and the edge
    label compute, to compare with the definitions above. *)

(** The endpoints of the edges in the order they are met. *)
Definition endpoints (edges : list Edge) : list string :=
  flat_map (λ edge, [u edge; v edge]) edges.

(** Each value once, where it is first seen. *)
Fixpoint firstSeen (l : list string) : list string :=
  match l with
  | [] => []
  | a :: rest => a :: filter (λ b, b ≠ a) (firstSeen rest)
  end.

(** The position of the first occurrence of [a] in [l] ([length l] when
    there is none). *)
Fixpoint firstIndex (a : string) (l : list string) : nat :=
  match l with
  | [] => 0
  | b :: rest => if bool_decide (b = a) then 0 else S (firstIndex a rest)
  end.

(** Whether [node] has a position within the hit radius of the pointer. *)
Definition hits (graphPositions : gmap string Point) (pointer : Point)
    (node : string) : bool :=
  match graphPositions !! node with
  | Some pos => isHit pointer pos
  | None => false
  end.

(** The last node of the list that the pointer hits, if any. *)
Definition lastHit (graphPositions : gmap string Point) (pointer : Point)
    (nodes : list string) : option string :=
  last (filter (λ node, hits graphPositions pointer node = true) nodes).

(** The node a pointer event resolves to, in the specification's words:
    the last node of the list within the hit radius of the pointer. *)
Definition resolvedHit (st : View) (rect : DOMRect.t) (e : MouseEvent)
    : option string :=
  match graphCanvas st with
  | Some canvas =>
      lastHit (graphPositions st) (pointerPosition canvas rect e)
        (graphNodeList st)
  | None => None
  end.

(** A distance that is a defined, non-zero number. *)
Definition definedNonZero (v : jsval) : option float :=
  match v with
  | undefined => None
  | num d => if is_nan d || (d =? 0)%float then None else Some d
  end.

(** ** Invariants and relations used in the proofs *)

(** The graph has been built: [drawMSTGraph] got past its guard, so the
    canvas exists with its 800 by 500 surface, there is a node, and every
    node of the list has a position. *)
Record Built (st : View) : Prop := {
  built_canvas : ∃ c, graphCanvas st = Some c
                      ∧ width c = graphWidth ∧ height c = graphHeight;
  built_nodes : graphNodeList st ≠ [];
  built_positions :
    ∀ node, node ∈ graphNodeList st → is_Some (graphPositions st !! node)
}.

(** Two canvases of the size the view creates. *)
Definition sized (c1 c2 : Canvas) : Prop :=
  width c1 = graphWidth ∧ height c1 = graphHeight
  ∧ width c2 = graphWidth ∧ height c2 = graphHeight.

(** ... that show the same surface contents. *)
Definition same_pixels (c1 c2 : Canvas) : Prop :=
  sized c1 c2 ∧ pixels c1 = pixels c2.

(** ... and also agree on the drawing state and the current path. *)
Definition same_drawing (c1 c2 : Canvas) : Prop :=
  same_pixels c1 c2 ∧ state c1 = state c2 ∧ path c1 = path c2.

(** What no drawing call of the view changes: the size of the canvas and,
    once each [save] has met its [restore], the stack of saved states. *)
Definition frame (c c' : Canvas) : Prop :=
  width c' = width c ∧ height c' = height c ∧ saved c' = saved c.

(** No relation between the two canvases: for a drawing that merely
    returns and keeps the frame. *)
Definition unrelated (c1 c2 : Canvas) : Prop := True.

(** [m] does not throw, keeps the frame, and takes canvases related by [R]
    to canvases related by [R']. *)
Definition preserves (R R' : Canvas → Canvas → Prop) (m : Draw unit) : Prop :=
  ∀ c1 c2, R c1 c2 →
    ∃ c1' c2', m c1 = Ok (tt, c1') ∧ m c2 = Ok (tt, c2')
               ∧ R' c1' c2' ∧ frame c1 c1' ∧ frame c2 c2'.

(** ** Text of the data files (script.js, lines 32-49) *)

(** A JavaScript string is kept as the bytes of its UTF-8 encoding, so
    that a ticker read from a file is the [string] the graph uses; the text
    [response.text()] decodes is well formed and has one.  The
    characters [trim] removes are the white space and line terminators of
    the language: U+0009 to U+000D and U+0020 in one byte, U+00A0 in two,
    and U+1680, U+2000 to U+200A, U+2028, U+2029, U+202F, U+205F, U+3000
    and U+FEFF in three. *)
Definition space1 (a : Ascii.ascii) : bool :=
  let a := Ascii.N_of_ascii a in
  ((9 <=? a) && (a <=? 13) || (a =? 32))%N.

Definition space2 (a b : Ascii.ascii) : bool :=
  let a := Ascii.N_of_ascii a in
  let b := Ascii.N_of_ascii b in
  ((a =? 0xC2) && (b =? 0xA0))%N.

Definition space3 (a b c : Ascii.ascii) : bool :=
  let a := Ascii.N_of_ascii a in
  let b := Ascii.N_of_ascii b in
  let c := Ascii.N_of_ascii c in
  ((a =? 0xE1) && (b =? 0x9A) && (c =? 0x80)
   || (a =? 0xE2) && (b =? 0x80)
      && ((0x80 <=? c) && (c <=? 0x8A)
          || (c =? 0xA8) || (c =? 0xA9) || (c =? 0xAF))
   || (a =? 0xE2) && (b =? 0x81) && (c =? 0x9F)
   || (a =? 0xE3) && (b =? 0x80) && (c =? 0x80)
   || (a =? 0xEF) && (b =? 0xBB) && (c =? 0xBF))%N.

(** Removes the leading white space of a string given as its bytes; with
    [back], of one given last byte first. *)
Fixpoint strip (back : bool) (s : list Ascii.ascii) : list Ascii.ascii :=
  match s with
  | [] => []
  | a :: s1 =>
      if space1 a then strip back s1
      else match s1 with
      | [] => s
      | b :: s2 =>
          if (if back then space2 b a else space2 a b) then strip back s2
          else match s2 with
          | [] => s
          | c :: s3 =>
              if (if back then space3 c b a else space3 a b c)
              then strip back s3
              else s
          end
      end
  end.

(** [s.trim()]. *)
Definition String_trim (s : string) : string :=
  String.string_of_list_ascii
    (rev (strip true (rev (strip false (String.list_ascii_of_string s))))).

(** [s.split(sep)] for a separator of one character: the part before the
    first separator, and the parts after it. *)
Fixpoint split_parts (sep : Ascii.ascii) (s : string) : string * list string :=
  match s with
  | EmptyString => (EmptyString, [])
  | String a rest =>
      let (part, parts) := split_parts sep rest in
      if Ascii.eqb a sep then (EmptyString, part :: parts)
      else (String a part, parts)
  end.

Definition String_split (sep : Ascii.ascii) (s : string) : list string :=
  let (part, parts) := split_parts sep s in part :: parts.

Definition newline : Ascii.ascii := Ascii.ascii_of_nat 10.
Definition comma : Ascii.ascii := Ascii.ascii_of_nat 44.

(** A row of a file: an object made by [{}], as its own properties. *)
Abbreviation Row := (gmap string string).

(** [obj[key] = value] on such an object, for a string [value].  The
    setter [Object.prototype.__proto__] ignores a string, and no own
    property is made; every other key becomes an own property. *)
Definition Object_set (obj : Row) (key value : string) : Row :=
  if String.eqb key "__proto__" then obj else <[key := value]> obj.

(** [values[index]?.trim() || '']. *)
Definition cell (values : list string) (index : nat) : string :=
  let trimmed := String_trim <$> values !! index in
  if truthy trimmed then default EmptyString trimmed else EmptyString.

(** [headers.forEach((header, index) => { obj[header] = ... })] from
    [index] on. *)
Fixpoint fillRow (headers : list string) (index : nat) (values : list string)
    (obj : Row) : Row :=
  match headers with
  | [] => obj
  | header :: rest =>
      fillRow rest (S index) values (Object_set obj header (cell values index))
  end.

Module CSV.
Record t := {
  headers : list string;
  data : list Row
}.
End CSV.

(** [text.trim().split('\n').filter(line => line.trim().length > 0)]. *)
Definition nonBlankLines (text : string) : list string :=
  List.filter (λ line, (0 <? String.length (String_trim line))%nat)
    (String_split newline (String_trim text)).

(** [parseCSV(text)]. *)
Definition parseCSV (text : string) : CSV.t :=
  let lines := nonBlankLines text in
  match lines with
  | [] => {| CSV.headers := []; CSV.data := [] |}
  | first :: rest =>
      let headers := String_trim <$> String_split comma first in
      let data :=
        (λ line, let values := String_split comma line in
                 fillRow headers 0 values ∅) <$> rest in
      {| CSV.headers := headers; CSV.data := data |}
  end.

(** ** Loading the edges (script.js, lines 125-138) *)

(** [row.name] for a name that [Object.prototype] does not have:
    the own property, or [undefined]. *)
Definition Object_get (row : Row) (name : string) : option string :=
  row !! name.

(** ToString of a value that is a string or [undefined]. *)
Definition ToString (value : option string) : string :=
  match value with
  | Some s => s
  | None => "undefined"
  end.

(** [n || 0] on a number: NaN and both zeros are falsy. *)
Definition or_zero (n : float) : float :=
  if is_nan n || (n =? 0)%float then 0%float else n.

(** An element of [stockData.mstEdges] as the loader makes it: an endpoint
    is [undefined] when the file has no such column. *)
Module Loaded.
Record edge := {
  u : option string;
  v : option string;
  corr : float;
  distance : float
}.
End Loaded.

Section loader.
(** The global [parseFloat], on a string. *)
Variable parseFloat : string → float.

(** The function mapped over [mstData.data]. *)
Definition loadEdge (row : Row) : Loaded.edge :=
  {| Loaded.u := Object_get row "u";
     Loaded.v := Object_get row "v";
     Loaded.corr := or_zero (parseFloat (ToString (Object_get row "corr")));
     Loaded.distance :=
       or_zero (parseFloat (ToString (Object_get row "distance"))) |}.

(** The assignment to [stockData.mstEdges], under its guard; [mstData] is
    [None] when no path could be fetched. *)
Definition loadMstEdges (mstData : option CSV.t) (mstEdges : list Loaded.edge)
    : list Loaded.edge :=
  match mstData with
  | Some mstData =>
      if (0 <? length (CSV.data mstData))%nat
      then loadEdge <$> CSV.data mstData
      else mstEdges
  | None => mstEdges
  end.

End loader.

(** A loaded edge as the graph reads it, when both endpoints are strings. *)
Definition graphEdge (edge : Loaded.edge) : option Edge :=
  match Loaded.u edge, Loaded.v edge with
  | Some u, Some v =>
      Some {| u := u; v := v; corr := Loaded.corr edge;
              distance := num (Loaded.distance edge) |}
  | _, _ => None
  end.

(** A small edge file, with a byte order mark, a blank line, a short line
    and padded fields, and [parseFloat] on the numbers it holds. *)
Module DemoFile.

Definition line (s : string) : string := s +:+ String newline EmptyString.

Definition text : string :=
  String (Ascii.ascii_of_nat 239) (String (Ascii.ascii_of_nat 187)
    (String (Ascii.ascii_of_nat 191) EmptyString))
  +:+ line "u,v,corr,distance"
  +:+ line "A, B ,0.8,0.2"
  +:+ line "   "
  +:+ line "B,C,-0.6"
  +:+ line "".

Definition parseFloat (s : string) : float :=
  if String.eqb s "0.8" then 0.8%float
  else if String.eqb s "0.2" then 0.2%float
  else if String.eqb s "-0.6" then (-0.6)%float
  else nan.

(** A price file: three heading lines, a quote, a line with no closing
    price and a line with too few fields. *)
Definition prices : string :=
  line "Price,Close,High,Low,Open,Volume"
  +:+ line "Ticker,A,A,A,A,A"
  +:+ line "Date,,,,,"
  +:+ line "2024-01-01,0.8,0.8,0.2,0.2,100"
  +:+ line "2024-01-02,,0.8,0.2,0.2,100"
  +:+ line "2024-01-03,0.8".

End DemoFile.

(** ** Price history of one stock (script.js, lines 555-586) *)

Module Price.
Record t := {
  date : string;
  close : float;
  high : float;
  low : float;
  open : float
}.
End Price.

Section prices.
Variable parseFloat : string → float.

(** The body of the loop over the lines: what is pushed, if anything. *)
Definition pricePoint (line : string) : option Price.t :=
  let values := String_split comma line in
  match values with
  | v0 :: v1 :: v2 :: v3 :: v4 :: _ =>
      let date := String_trim v0 in
      let close := or_zero (parseFloat v1) in
      let high := or_zero (parseFloat v2) in
      let low := or_zero (parseFloat v3) in
      let open := or_zero (parseFloat v4) in
      if truthy (Some date) && (0 <? close)%float
      then Some {| Price.date := date; Price.close := close;
                   Price.high := high; Price.low := low;
                   Price.open := open |}
      else None
  | _ => None
  end.

(** [for (let i = 3; i < lines.length; i++)] from line [i] on. *)
Fixpoint collectPrices (lines : list string) (priceData : list Price.t)
    : list Price.t :=
  match lines with
  | [] => priceData
  | line :: rest =>
      collectPrices rest
        match pricePoint line with
        | Some point => priceData ++ [point]
        | None => priceData
        end
  end.

(** [a.slice(-n)]. *)
Definition slice_last {A} (n : nat) (a : list A) : list A :=
  drop (length a - n) a.

(** What [loadStockPriceChart] hands to [drawStockPriceChart] for the text
    of a fetched file; [None] where it returns before. *)
Definition last6Months (text : string) : option (list Price.t) :=
  let lines := nonBlankLines text in
  if (length lines <? 4)%nat then None
  else
    let priceData := collectPrices (drop 3 lines) [] in
    if (length priceData =? 0)%nat then None
    else Some (slice_last 130 priceData).

End prices.

(** ** Notions used in the further properties *)

(** Where the hovered node is a node of the list, or there is none. *)
Definition hoverInList (st : View) : Prop :=
  match hoveredNode st with
  | None => True
  | Some node => node ∈ graphNodeList st
  end.

(** [u && v] for an edge: whether both endpoints read as truthy. *)
Definition positioned (positions : gmap string Point) (edge : Edge) : bool :=
  ToBoolean (readPosition positions (u edge))
  && ToBoolean (readPosition positions (v edge)).

(** What the edge loop paints: a line between two points, a label patch,
    a label. *)
Definition edgePaint (p : Paint) : bool :=
  match p with
  | Stroked [MoveTo _ _; LineTo _ _] _ _ => true
  | FilledRect _ _ _ _ _ => true
  | FilledText _ _ _ _ _ _ _ => true
  | _ => false
  end.

(** What the node loop paints: a disc, its outline, text. *)
Definition nodePaint (p : Paint) : bool :=
  match p with
  | Filled [Arc _ _ _ _ _] _ => true
  | Stroked [Arc _ _ _ _ _] _ _ => true
  | FilledText _ _ _ _ _ _ _ => true
  | _ => false
  end.

(** The legend as [redrawGraph] paints it on a canvas of height 500.  The
    code never sets [textBaseline] for it: the one in force applies. *)
Definition legendPaints (baseline : string) : list Paint :=
  let dot cy := [Arc 10 cy 5 0 (2 * Math_PI)%float] in
  [ FilledText "BUY" 20 450 (css "#8b949e") (Segoe "11px") "left" baseline;
    FilledText "HOLD" 20 465 (css "#8b949e") (Segoe "11px") "left" baseline;
    FilledText "AVOID" 20 480 (css "#8b949e") (Segoe "11px") "left" baseline;
    Filled (dot 450%float) (css "#3fb950");
    Filled (dot 465%float) (css "#8b949e");
    Filled (dot 480%float) (css "#f85149") ].

(** A drawing that only adds paints of one kind. *)
Definition appends (P : Paint → bool) (m : Draw unit) : Prop :=
  ∀ c c', m c = Ok (tt, c') →
    ∃ l, pixels c' = pixels c ++ l ∧ Forall (λ p, P p = true) l.

(** A point the loop accepts. *)
Definition validPoint (point : Price.t) : Prop :=
  Price.date point ≠ EmptyString
  ∧ (0 <? Price.close point)%float = true
  ∧ is_nan (Price.close point) = false
  ∧ is_nan (Price.high point) = false
  ∧ is_nan (Price.low point) = false
  ∧ is_nan (Price.open point) = false.

(** Whether a string starts with a white space character. *)
Definition lead (back : bool) (s : list Ascii.ascii) : bool :=
  match s with
  | [] => false
  | a :: s1 =>
      space1 a
      || match s1 with
         | [] => false
         | b :: s2 =>
             (if back then space2 b a else space2 a b)
             || match s2 with
                | [] => false
                | c :: _ => if back then space3 c b a else space3 a b c
                end
         end
  end.

(** * Properties *)

(** ** Facts on binary64 comparisons and differences *)

Lemma SFcompare_antisym a b :
  SFcompare b a = CompOpp <$> SFcompare a b.
Proof.
  destruct a as [sa|sa| |sa ma ea], b as [sb|sb| |sb mb eb]; simpl;
    try done; try (by destruct sa); try (by destruct sb);
    try (by destruct sa, sb).
  destruct sa, sb; try done.
  - rewrite (Z.compare_antisym ea eb).
    destruct (ea ?= eb)%Z; simpl; try done.
    f_equal. change (PosDef.Pos.compare_cont Eq) with Pos.compare.
    by rewrite (Pos.compare_antisym ma mb), CompOpp_involutive.
  - rewrite (Z.compare_antisym ea eb).
    destruct (ea ?= eb)%Z; simpl; try done.
    f_equal. change (PosDef.Pos.compare_cont Eq) with Pos.compare.
    by rewrite (Pos.compare_antisym ma mb).
Qed.

Lemma ltb_leb_false (a b : float) :
  (a <? b)%float = true → (b <=? a)%float = false.
Proof.
  rewrite FloatAxioms.ltb_spec, FloatAxioms.leb_spec. unfold SFltb, SFleb.
  rewrite (SFcompare_antisym (Prim2SF a) (Prim2SF b)).
  by destruct (SFcompare (Prim2SF a) (Prim2SF b)) as [[]|].
Qed.

Lemma ltb_asym (a b : float) :
  (a <? b)%float = true → (b <? a)%float = false.
Proof.
  rewrite !FloatAxioms.ltb_spec. unfold SFltb.
  rewrite (SFcompare_antisym (Prim2SF a) (Prim2SF b)).
  by destruct (SFcompare (Prim2SF a) (Prim2SF b)) as [[]|].
Qed.

Lemma ltb_leb (a b : float) :
  (a <? b)%float = true → (a <=? b)%float = true.
Proof.
  rewrite FloatAxioms.ltb_spec, FloatAxioms.leb_spec. unfold SFltb, SFleb.
  by destruct (SFcompare (Prim2SF a) (Prim2SF b)) as [[]|].
Qed.

(** A finite number is a zero or has a mantissa and an exponent. *)
Lemma is_finite_SF (a : float) :
  is_finite a = true →
  match Prim2SF a with
  | S754_zero _ | S754_finite _ _ _ => True
  | _ => False
  end.
Proof.
  unfold is_finite, Prim2SF. intros H.
  destruct (is_nan a); [done|]. destruct (is_zero a); [done|].
  destruct (is_infinity a); [done|].
  destruct (Z.frexp a) as [r e].
  destruct (shr_fexp _ _ _ _ _) as [shr e']. by destruct (shr_m shr).
Qed.

(** The difference of a finite number with itself is [+0]. *)
Lemma sub_diag_finite (a : float) :
  is_finite a = true → (a - a)%float = 0%float.
Proof.
  intros H. apply is_finite_SF in H. apply Prim2SF_inj.
  rewrite FloatAxioms.sub_spec.
  destruct (Prim2SF a) as [s|s| |s m e]; try done.
  - by destruct s.
  - unfold SF64sub, SFsub. by rewrite Z.sub_diag.
Qed.

Lemma is_nan_SF (a : float) : is_nan a = true ↔ Prim2SF a = S754_nan.
Proof.
  unfold is_nan. rewrite FloatAxioms.eqb_spec. unfold SFeqb.
  destruct (Prim2SF a) as [s|s| |s m e]; simpl; try done.
  - by destruct s.
  - rewrite Z.compare_refl.
    change (PosDef.Pos.compare_cont Eq m m) with (Pos.compare m m).
    rewrite Pos.compare_refl. by destruct s.
Qed.

Lemma is_nan_abs (a : float) : is_nan (Math_abs a) = is_nan a.
Proof.
  apply eq_true_iff_eq. rewrite !is_nan_SF. unfold Math_abs.
  rewrite FloatAxioms.abs_spec.
  by destruct (Prim2SF a).
Qed.

Lemma abs_abs (a : float) : Math_abs (Math_abs a) = Math_abs a.
Proof.
  unfold Math_abs. apply Prim2SF_inj. rewrite !FloatAxioms.abs_spec.
  by destruct (Prim2SF a).
Qed.

Lemma is_finite_abs (a : float) : is_finite (Math_abs a) = is_finite a.
Proof.
  unfold is_finite, is_infinity. rewrite is_nan_abs.
  fold (Math_abs (Math_abs a)). fold (Math_abs a). by rewrite abs_abs.
Qed.

Lemma is_finite_not_nan (a : float) : is_finite a = true → is_nan a = false.
Proof. unfold is_finite. by destruct (is_nan a). Qed.

(** [Math.max(0.3, c)] is never below 0.3, and at least 0.3 unless NaN. *)
Lemma Math_max_floor (c : float) : (Math_max 0.3 c <? 0.3)%float = false.
Proof.
  unfold Math_max. change (is_nan 0.3) with false. simpl.
  destruct (is_nan c); [done|].
  destruct (0.3 <? c)%float eqn:H1; [by apply ltb_asym|].
  by destruct (c <? 0.3)%float.
Qed.

Lemma Math_max_floor_le (c : float) :
  is_nan c = false → (0.3 <=? Math_max 0.3 c)%float = true.
Proof.
  intros Hc. unfold Math_max. change (is_nan 0.3) with false. simpl.
  rewrite Hc.
  destruct (0.3 <? c)%float eqn:H1; [by apply ltb_leb|].
  by destruct (c <? 0.3)%float.
Qed.

Lemma Math_max_finite (c : float) :
  is_finite c = true → is_finite (Math_max 0.3 c) = true.
Proof.
  intros Hc. unfold Math_max. change (is_nan 0.3) with false. simpl.
  rewrite (is_finite_not_nan _ Hc).
  destruct (0.3 <? c)%float; [done|]. by destruct (c <? 0.3)%float.
Qed.

(** The alpha of an edge with a finite correlation is a finite number. *)
Lemma edgeAlpha_finite (hoveredNode : option string) (edge : Edge) :
  is_finite (corr edge) = true → is_finite (edgeAlpha hoveredNode edge) = true.
Proof.
  intros Hc. unfold edgeAlpha.
  destruct (isHighlighted hoveredNode edge); [done|].
  apply Math_max_finite. by rewrite is_finite_abs.
Qed.

(** ** The node set *)

Lemma Set_add_elem s a b : b ∈ Set_add s a ↔ b ∈ s ∨ b = a.
Proof.
  unfold Set_add. case_bool_decide as Ha.
  - split; [by left|]. intros [Hb| ->]; done.
  - rewrite elem_of_app, list_elem_of_singleton. done.
Qed.

Lemma Set_add_NoDup s a : NoDup s → NoDup (Set_add s a).
Proof.
  intros Hs. unfold Set_add. case_bool_decide; [done|].
  apply NoDup_app. split_and!; [done| |apply NoDup_singleton].
  intros b Hb Hba. apply list_elem_of_singleton in Hba as ->. done.
Qed.

Lemma collectNodes_endpoints edges :
  collectNodes edges = foldl Set_add [] (endpoints edges).
Proof.
  unfold collectNodes.
  enough (∀ acc, foldl (λ nodes edge, Set_add (Set_add nodes (u edge)) (v edge))
                   acc edges = foldl Set_add acc (endpoints edges)) as H
    by apply H.
  induction edges as [|e edges IH]; intros acc; [done|].
  cbn [endpoints flat_map foldl app]. apply IH.
Qed.

Lemma firstSeen_elem a l : a ∈ firstSeen l ↔ a ∈ l.
Proof.
  induction l as [|b l IH]; simpl; [done|].
  rewrite !elem_of_cons, list_elem_of_filter, IH.
  destruct (decide (a = b)); naive_solver.
Qed.

Lemma firstSeen_NoDup l : NoDup (firstSeen l).
Proof.
  induction l as [|b l IH]; simpl; [constructor|].
  constructor; [|by apply NoDup_filter].
  rewrite list_elem_of_filter. naive_solver.
Qed.

(** The loop adds to what is already in the set the values not yet
    there, each where it is first seen. *)
Lemma foldl_Set_add acc l :
  foldl Set_add acc l = acc ++ filter (λ b, b ∉ acc) (firstSeen l).
Proof.
  revert acc. induction l as [|a l IH]; intros acc; simpl.
  - by rewrite app_nil_r.
  - rewrite IH. unfold Set_add. case_bool_decide as Ha.
    + rewrite filter_cons_False by (intros Hn; by apply Hn).
      f_equal. rewrite list_filter_filter. apply list_filter_iff.
      intros b. split; [|naive_solver]. intros Hb. split; [done|].
      intros ->. done.
    + rewrite filter_cons_True by done.
      rewrite <- app_assoc. simpl. do 2 f_equal.
      rewrite list_filter_filter. apply list_filter_iff.
      intros b. rewrite not_elem_of_app, list_elem_of_singleton. naive_solver.
Qed.

Lemma filter_all {A} (P : A → Prop) `{!∀ a, Decision (P a)} (l : list A) :
  (∀ a, a ∈ l → P a) → filter P l = l.
Proof.
  induction l as [|a l IH]; intros Hl; [done|].
  rewrite filter_cons_True by (apply Hl; left).
  f_equal. apply IH. intros b Hb. apply Hl. by right.
Qed.

Lemma collectNodes_firstSeen edges :
  collectNodes edges = firstSeen (endpoints edges).
Proof.
  rewrite collectNodes_endpoints, foldl_Set_add. simpl.
  apply filter_all. intros b _. apply not_elem_of_nil.
Qed.

Lemma collectNodes_NoDup edges : NoDup (collectNodes edges).
Proof. rewrite collectNodes_firstSeen. apply firstSeen_NoDup. Qed.

Lemma elem_of_endpoints a edges :
  a ∈ endpoints edges ↔ ∃ edge, edge ∈ edges ∧ (a = u edge ∨ a = v edge).
Proof.
  unfold endpoints. rewrite list_elem_of_In, in_flat_map.
  split; intros (e & He & Ha); exists e; rewrite ?list_elem_of_In in *;
    (split; [done|]); simpl in *; naive_solver.
Qed.

Lemma collectNodes_elem a edges :
  a ∈ collectNodes edges ↔ ∃ edge, edge ∈ edges ∧ (a = u edge ∨ a = v edge).
Proof.
  rewrite collectNodes_firstSeen, firstSeen_elem. apply elem_of_endpoints.
Qed.

Lemma StronglySorted_filter_impl {A} (R R' : A → A → Prop) (P : A → Prop)
    `{!∀ a, Decision (P a)} (l : list A) :
  (∀ a b, P a → P b → R a b → R' a b) →
  StronglySorted R l → StronglySorted R' (filter P l).
Proof.
  intros HR. induction 1 as [|a l Hl IH Ha]; [constructor|].
  rewrite filter_cons. case_decide as Hp; [|done].
  constructor; [done|].
  apply Forall_forall. intros b Hb. apply list_elem_of_filter in Hb as [Hpb Hb].
  apply HR; [done..|]. rewrite Forall_forall in Ha. by apply Ha.
Qed.

(** The node list is strictly increasing in the position at which each
    value is first seen. *)
Lemma firstSeen_sorted l :
  StronglySorted (λ a b, firstIndex a l < firstIndex b l) (firstSeen l).
Proof.
  induction l as [|c l IH]; simpl; [constructor|].
  constructor.
  - eapply StronglySorted_filter_impl; [|exact IH].
    intros a b Ha Hb Hab. simpl.
    rewrite !bool_decide_eq_false_2 by done. cbn beta in Hab. lia.
  - apply Forall_forall. intros b Hb.
    apply list_elem_of_filter in Hb as [Hbc _].
    rewrite bool_decide_eq_true_2 by done.
    rewrite bool_decide_eq_false_2 by done. lia.
Qed.

(** ** The layout loop *)

Section layout.
Context `{Runtime}.

Lemma placeNodes_other n i nodes (m : gmap string Point) node :
  node ∉ nodes → placeNodes n i nodes m !! node = m !! node.
Proof.
  revert i m. induction nodes as [|a nodes IH]; intros i m Hn; simpl; [done|].
  apply not_elem_of_cons in Hn as [Hne Hn].
  rewrite IH by done. by rewrite lookup_insert_ne.
Qed.


(** Every node of the list gets some position. *)
Lemma placeNodes_is_Some n i nodes (m : gmap string Point) node :
  node ∈ nodes → is_Some (placeNodes n i nodes m !! node).
Proof.
  revert i m. induction nodes as [|a nodes IH]; intros i m Hn; simpl.
  - by apply elem_of_nil in Hn.
  - destruct (decide (node ∈ nodes)) as [Hin|Hnin]; [by apply IH|].
    apply elem_of_cons in Hn as [->|Hn]; [|done].
    rewrite placeNodes_other by done. rewrite lookup_insert_eq. by eexists.
Qed.

End layout.

(** ** The exact layout *)

Section exact_layout.
Local Open Scope R_scope.








End exact_layout.

(** ** Reading positions *)

Lemma readPosition_own positions name pos :
  positions !! name = Some pos → readPosition positions name = Reference pos.
Proof. unfold readPosition. by intros ->. Qed.

Lemma coordinates_own positions name pos :
  positions !! name = Some pos →
  coordinates (readPosition positions name) = Some pos.
Proof. intros Hpos. by rewrite (readPosition_own _ _ _ Hpos). Qed.

(** Only [undefined] has no coordinates to read; what is truthy has. *)
Lemma coordinates_None r : coordinates r = None ↔ r = Undefined.
Proof. by destruct r. Qed.

Lemma readPosition_Undefined positions name :
  readPosition positions name = Undefined
  ↔ positions !! name = None ∧ (name ∉ Object_prototype)
    ∧ (name = "x"%string ∨ name = "y"%string →
       positions !! "__proto__"%string = None).
Proof.
  unfold readPosition. destruct (positions !! name) as [pos|].
  { split; [done|]. by intros [? _]. }
  case_bool_decide as Hin.
  { split; [done|]. by intros (_ & ? & _). }
  destruct (positions !! "__proto__"%string) as [proto|].
  - destruct (String.eqb_spec name "x") as [->|Hx].
    { split; [done|]. intros (_ & _ & Hxy). discriminate Hxy. by left. }
    destruct (String.eqb_spec name "y") as [->|Hy].
    { split; [done|]. intros (_ & _ & Hxy). discriminate Hxy. by right. }
    split; [|done]. intros _. split_and!; try done. by intros [?|?].
  - done.
Qed.

Section reading.
Context `{Runtime}.

Lemma drawEdge_own positions hoveredNode edge pu pv :
  positions !! u edge = Some pu → positions !! v edge = Some pv →
  drawEdge positions hoveredNode edge = strokeEdge hoveredNode edge pu pv.
Proof.
  intros Hu Hv. unfold drawEdge.
  by rewrite (readPosition_own _ _ _ Hu), (readPosition_own _ _ _ Hv).
Qed.

(** An edge is skipped, or its line and label are drawn: the guard lets
    nothing through that throws. *)
Lemma drawEdge_cases positions hoveredNode edge :
  (ToBoolean (readPosition positions (u edge))
   && ToBoolean (readPosition positions (v edge)) = false
   ∧ drawEdge positions hoveredNode edge = mret tt)
  ∨ ∃ pu pv,
      ToBoolean (readPosition positions (u edge))
      && ToBoolean (readPosition positions (v edge)) = true
      ∧ coordinates (readPosition positions (u edge)) = Some pu
      ∧ coordinates (readPosition positions (v edge)) = Some pv
      ∧ drawEdge positions hoveredNode edge
        = strokeEdge hoveredNode edge pu pv.
Proof.
  unfold drawEdge.
  destruct (readPosition positions (u edge)) as [|nu|pu],
    (readPosition positions (v edge)) as [|nv|pv]; cbn [ToBoolean coordinates];
    try (left; by rewrite ?andb_false_r).
  - destruct (negb _ && negb _); [right|left]; by eauto 10.
  - destruct (negb _ && true); [right|left]; by eauto 10.
  - destruct (true && negb _); [right|left]; by eauto 10.
  - right. by eauto 10.
Qed.

End reading.

(** ** The hit test *)

Lemma isHit_center (p : Point) :
  is_finite (x p) = true → is_finite (y p) = true → isHit p p = true.
Proof.
  intros Hx Hy. unfold isHit, pointerDistance.
  by rewrite (sub_diag_finite _ Hx), (sub_diag_finite _ Hy).
Qed.

Lemma isHit_far (pointer pos : Point) :
  (20 <? pointerDistance pointer pos)%float = true → isHit pointer pos = false.
Proof. apply ltb_leb_false. Qed.

Lemma lastHit_cons positions pointer node nodes :
  lastHit positions pointer (node :: nodes)
  = match lastHit positions pointer nodes with
    | Some found => Some found
    | None => if hits positions pointer node then Some node else None
    end.
Proof.
  unfold lastHit. rewrite filter_cons. case_decide as Hd.
  - rewrite Hd. apply last_cons.
  - destruct (hits positions pointer node); [done|].
    by destruct (last _).
Qed.

(** The loop ends with the last hit of the list, or with what
    [foundNode] held when no node is hit. *)
Lemma findNode_lastHit positions pointer nodes foundNode :
  (∀ node, node ∈ nodes → is_Some (positions !! node)) →
  findNode positions pointer nodes foundNode
  = Ok (match lastHit positions pointer nodes with
        | Some found => Some found
        | None => foundNode
        end).
Proof.
  revert foundNode. induction nodes as [|node nodes IH]; intros found Hpos.
  - done.
  - simpl. destruct (Hpos node) as [pos Hnode]; [by left|].
    rewrite (coordinates_own _ _ _ Hnode), IH
      by (intros ? ?; apply Hpos; by right).
    rewrite lastHit_cons. unfold hits. rewrite Hnode.
    by destruct (lastHit positions pointer nodes), (isHit pointer pos).
Qed.

Lemma lastHit_None positions pointer nodes :
  lastHit positions pointer nodes = None
  ↔ ∀ node, node ∈ nodes → hits positions pointer node = false.
Proof.
  unfold lastHit. rewrite last_None. split.
  - intros Hnil node Hnode.
    destruct (hits positions pointer node) eqn:Hh; [|done].
    by destruct (filter_nil_not_elem_of _ _ node Hnil Hh).
  - intros Hall. induction nodes as [|node nodes IH]; [done|].
    rewrite filter_cons_False.
    + apply IH. intros ? ?. apply Hall. by right.
    + rewrite Hall by (by left). done.
Qed.

Lemma lastHit_Some positions pointer nodes found :
  lastHit positions pointer nodes = Some found →
  hits positions pointer found = true
  ∧ ∃ before after, nodes = before ++ found :: after
      ∧ ∀ node, node ∈ after → hits positions pointer node = false.
Proof.
  unfold lastHit. intros Hlast. split.
  - apply last_Some_elem_of, list_elem_of_filter in Hlast. tauto.
  - apply last_filter_Some in Hlast as (l1 & l2 & -> & Hl2).
    exists l1, l2. split; [done|]. intros node Hnode.
    rewrite Forall_forall in Hl2. specialize (Hl2 node Hnode).
    by destruct (hits positions pointer node).
Qed.

(** ** The repaint *)

(** Runs the context operations of a straight-line drawing on a canvas
    given by its fields. *)
Ltac run_draw :=
  cbv [mbind mret Draw_bind Draw_ret modify with_state with_path paint
       set_strokeStyle set_lineWidth set_fillStyle set_font set_textAlign
       set_textBaseline beginPath moveTo lineTo arc stroke fill fillRect
       fillText save restore measureText clearRect valid_style
       width height state saved path pixels
       strokeStyle lineWidth fillStyle font textAlign textBaseline].

(** Closes [preserves] for such a drawing. *)
Ltac solve_preserves :=
  intros [w1 h1 [] sv1 p1 px1] [w2 h2 [] sv2 p2 px2];
  unfold same_drawing, same_pixels, sized; simpl;
  intros; destruct_and?; simplify_eq;
  eexists _, _; run_draw;
  (split; [reflexivity|]); (split; [reflexivity|]);
  unfold same_drawing, same_pixels, sized, frame; simpl; done.

Section repaint.
Context `{Runtime}.

Lemma frame_refl c : frame c c.
Proof. done. Qed.

Lemma frame_trans c1 c2 c3 : frame c1 c2 → frame c2 c3 → frame c1 c3.
Proof. unfold frame. intros (-> & -> & ->) (-> & -> & ->). done. Qed.

Lemma preserves_ret R : preserves R R (mret tt).
Proof. intros c1 c2 HR. by exists c1, c2. Qed.

Lemma preserves_seq R1 R2 R3 (m1 m2 : Draw unit) :
  preserves R1 R2 m1 → preserves R2 R3 m2 → preserves R1 R3 (m1 ;; m2).
Proof.
  intros H1 H2 c1 c2 HR.
  destruct (H1 c1 c2 HR) as (d1 & d2 & E1 & E2 & HR2 & F1 & F2).
  destruct (H2 d1 d2 HR2) as (e1 & e2 & E1' & E2' & HR3 & F1' & F2').
  exists e1, e2. unfold mbind, Draw_bind. rewrite E1, E2.
  split_and!; try done; by eapply frame_trans.
Qed.

Lemma preserves_weaken (R1 R2 R1' R2' : Canvas → Canvas → Prop) m :
  (∀ c1 c2, R1' c1 c2 → R1 c1 c2) → (∀ c1 c2, R2 c1 c2 → R2' c1 c2) →
  preserves R1 R2 m → preserves R1' R2' m.
Proof.
  intros Hpre Hpost Hm c1 c2 HR.
  destruct (Hm c1 c2 (Hpre _ _ HR)) as (d1 & d2 & ? & ? & ? & ? & ?).
  exists d1, d2. split_and!; try done. by apply Hpost.
Qed.

Lemma preserves_forEach {A} R (body : A → Draw unit) (l : list A) :
  (∀ a, a ∈ l → preserves R R (body a)) → preserves R R (forEach body l).
Proof.
  induction l as [|a l IH]; intros Hbody; simpl.
  - apply preserves_ret.
  - eapply preserves_seq; [apply Hbody; by left|].
    apply IH. intros ? ?. apply Hbody. by right.
Qed.

(** A loop whose body establishes [R'] from the weaker [R] establishes it
    as soon as it runs once. *)
Lemma preserves_forEach_first {A} (R R' : Canvas → Canvas → Prop)
    (body : A → Draw unit) (l : list A) :
  l ≠ [] → (∀ c1 c2, R' c1 c2 → R c1 c2) →
  (∀ a, a ∈ l → preserves R R' (body a)) → preserves R R' (forEach body l).
Proof.
  intros Hl Hsub Hbody. destruct l as [|a l]; [done|]. simpl.
  eapply preserves_seq; [apply Hbody; by left|].
  apply preserves_forEach. intros b Hb.
  eapply preserves_weaken; [apply Hsub|done|]. apply Hbody. by right.
Qed.

Lemma same_drawing_pixels c1 c2 : same_drawing c1 c2 → same_pixels c1 c2.
Proof. by intros [? _]. Qed.

(** Each part of the repaint returns and keeps the frame. *)

Lemma clearRect_total rx ry rw rh :
  preserves unrelated unrelated (clearRect rx ry rw rh).
Proof. unfold unrelated. solve_preserves. Qed.

Lemma drawEdge_total positions hoveredNode edge :
  preserves unrelated unrelated (drawEdge positions hoveredNode edge).
Proof.
  destruct (drawEdge_cases positions hoveredNode edge)
    as [[_ ->]|(pu & pv & _ & _ & _ & ->)]; [apply preserves_ret|].
  unfold strokeEdge, drawEdgeLabel, unrelated.
  unfold set_strokeStyle at 1.
  destruct (valid_style _), (negb (isNaN (weightValue edge)));
    solve_preserves.
Qed.

Lemma drawNode_total data positions hoveredNode node :
  is_Some (positions !! node) →
  preserves unrelated unrelated (drawNode data positions hoveredNode node).
Proof.
  intros [pos Hpos]. unfold drawNode, drawNodeInfo, unrelated.
  rewrite (coordinates_own _ _ _ Hpos).
  destruct (List.find _ _) as [stock|];
    [destruct (strict_eq hoveredNode (Some node))|]; solve_preserves.
Qed.

Lemma drawLegend_total h : preserves unrelated unrelated (drawLegend h).
Proof. unfold drawLegend, unrelated. solve_preserves. Qed.

(** A repaint does not throw once every node has a position. *)
Lemma redrawGraph_total data positions nodes hoveredNode c :
  (∀ node, node ∈ nodes → is_Some (positions !! node)) →
  ∃ c', redrawGraph data positions nodes hoveredNode c = Ok (tt, c')
        ∧ frame c c'.
Proof.
  intros Hpos.
  assert (preserves unrelated unrelated
            (redrawGraph data positions nodes hoveredNode)) as Hp.
  { unfold redrawGraph.
    eapply preserves_seq; [apply clearRect_total|].
    eapply preserves_seq;
      [apply preserves_forEach; intros; apply drawEdge_total|].
    eapply preserves_seq; [|apply drawLegend_total].
    apply preserves_forEach. intros node Hnode.
    by apply drawNode_total, Hpos. }
  destruct (Hp c c I) as (c' & _ & Hc & _ & _ & Hf & _). by exists c'.
Qed.

(** What each part leaves on the surface. *)

Lemma clearRect_preserves :
  preserves sized same_pixels (clearRect 0 0 graphWidth graphHeight).
Proof.
  intros [w1 h1 s1 sv1 p1 px1] [w2 h2 s2 sv2 p2 px2].
  unfold sized; simpl. intros (-> & -> & -> & ->).
  eexists _, _. split; [reflexivity|]. split; [reflexivity|].
  unfold same_pixels, sized, frame. simpl. done.
Qed.

(** The line of an edge takes the colour assigned for it when that is one:
    when the correlation is finite. *)
Lemma drawEdge_preserves positions hoveredNode edge :
  is_finite (corr edge) = true →
  preserves same_pixels same_pixels (drawEdge positions hoveredNode edge).
Proof.
  intros Hfin.
  destruct (drawEdge_cases positions hoveredNode edge)
    as [[_ ->]|(pu & pv & _ & _ & _ & ->)]; [apply preserves_ret|].
  unfold strokeEdge, drawEdgeLabel.
  unfold set_strokeStyle at 1. cbn [valid_style].
  rewrite (edgeAlpha_finite hoveredNode edge Hfin).
  destruct (negb (isNaN (weightValue edge))); solve_preserves.
Qed.

Lemma drawNode_preserves data positions hoveredNode node :
  is_Some (positions !! node) →
  preserves same_pixels same_drawing (drawNode data positions hoveredNode node).
Proof.
  intros [pos Hpos]. unfold drawNode, drawNodeInfo.
  rewrite (coordinates_own _ _ _ Hpos).
  destruct (List.find _ _) as [stock|];
    [destruct (strict_eq hoveredNode (Some node))|]; solve_preserves.
Qed.

Lemma drawLegend_preserves h :
  preserves same_drawing same_drawing (drawLegend h).
Proof. unfold drawLegend. solve_preserves. Qed.

(** With finite correlations, at least one node and every node placed,
    what a repaint leaves on the surface, and its drawing state, depend
    neither on the earlier contents nor on the earlier state. *)
Lemma redrawGraph_preserves data positions nodes hoveredNode :
  Forall (λ edge, is_finite (corr edge) = true) (mstEdges data) →
  nodes ≠ [] → (∀ node, node ∈ nodes → is_Some (positions !! node)) →
  preserves sized same_drawing (redrawGraph data positions nodes hoveredNode).
Proof.
  intros Hfin Hnodes Hpos. unfold redrawGraph.
  eapply preserves_seq; [apply clearRect_preserves|].
  eapply preserves_seq.
  { apply preserves_forEach. intros edge Hedge. apply drawEdge_preserves.
    rewrite Forall_forall in Hfin. by apply Hfin. }
  eapply preserves_seq; [|apply drawLegend_preserves].
  apply preserves_forEach_first; [done|apply same_drawing_pixels|].
  intros node Hnode. by apply drawNode_preserves, Hpos.
Qed.

End repaint.

(** ** The view *)

Section view.
Context `{Runtime}.

Lemma redraws_record_redraw st :
  redraws (record_call RedrawGraph st) = S (redraws st).
Proof.
  unfold redraws, record_call. simpl.
  rewrite filter_app, length_app. simpl. lia.
Qed.

Lemma same_drawing_eq c1 c2 :
  same_drawing c1 c2 → saved c1 = saved c2 → c1 = c2.
Proof.
  destruct c1, c2. unfold same_drawing, same_pixels, sized. simpl.
  intros (((Hw1 & Hh1 & Hw2 & Hh2) & Hp) & Hs & Hpa) Hsv. congruence.
Qed.

(** On a built view [redrawGraph()] returns; it touches the canvas and
    the trace only. *)
Lemma callRedrawGraph_built data st :
  Built st →
  ∃ c c', graphCanvas st = Some c
    ∧ redrawGraph data (graphPositions st) (graphNodeList st)
        (hoveredNode st) c = Ok (tt, c')
    ∧ frame c c'
    ∧ callRedrawGraph data st
      = Ok {| graphCanvas := Some c'; graphPositions := graphPositions st;
              graphNodeList := graphNodeList st;
              hoveredNode := hoveredNode st;
              calls := calls st ++ [RedrawGraph] |}.
Proof.
  intros [(c & Hc & Hw & Hh) Hn Hp].
  destruct (redrawGraph_total data _ _ (hoveredNode st) c Hp)
    as (c' & Hrun & Hf).
  exists c, c'. split_and!; try done.
  unfold callRedrawGraph. by rewrite Hc, Hrun.
Qed.

Lemma callRedrawGraph_Built data st :
  Built st →
  ∃ st', callRedrawGraph data st = Ok st' ∧ Built st'
    ∧ graphPositions st' = graphPositions st
    ∧ graphNodeList st' = graphNodeList st
    ∧ hoveredNode st' = hoveredNode st
    ∧ calls st' = calls st ++ [RedrawGraph].
Proof.
  intros Hb. destruct (callRedrawGraph_built data st Hb)
    as (c & c' & Hc & _ & (Hw & Hh & _) & ->).
  eexists. split; [done|]. split_and!; try done.
  destruct Hb as [(c0 & Hc0 & Hw0 & Hh0) Hn Hp]. simplify_eq.
  split; simpl; [|done..]. exists c'. split_and!; congruence.
Qed.

Lemma Built_set_hoveredNode h st : Built st → Built (set_hoveredNode h st).
Proof. intros [? ? ?]. by split. Qed.

Lemma collectNodes_nonempty edges : edges ≠ [] → collectNodes edges ≠ [].
Proof.
  destruct edges as [|e edges]; [done|]. intros _ Hnil.
  assert (u e ∈ collectNodes (e :: edges)) as Hin.
  { apply collectNodes_elem. exists e. split; [by left|by left]. }
  rewrite Hnil in Hin. by apply elem_of_nil in Hin.
Qed.

(** With a placeholder and an edge, [drawMSTGraph] builds the graph and
    paints it once. *)
Lemma drawMSTGraph_builds data st :
  mstEdges data ≠ [] →
  let nodes := collectNodes (mstEdges data) in
  ∃ st', drawMSTGraph true data st = Ok st' ∧ Built st'
    ∧ graphNodeList st' = nodes
    ∧ graphPositions st'
      = placeNodes (length nodes) 0 nodes (graphPositions st)
    ∧ hoveredNode st' = hoveredNode st
    ∧ calls st' = calls st ++ [RedrawGraph].
Proof.
  intros Hne. cbv zeta. unfold drawMSTGraph.
  destruct (mstEdges data) as [|e edges] eqn:He; [done|]. simpl.
  set (st0 := {| graphCanvas := _ |}).
  assert (Built st0) as Hb.
  { split; simpl.
    - eexists. by split_and!.
    - by apply collectNodes_nonempty.
    - intros node Hnode. by apply placeNodes_is_Some. }
  destruct (callRedrawGraph_Built data st0 Hb)
    as (st' & -> & Hb' & Hp & Hn & Hh & Hc).
  exists st'. subst st0. simpl in *. by split_and!.
Qed.

Lemma pointerPosition_size c1 c2 rect e :
  width c1 = width c2 → height c1 = height c2 →
  pointerPosition c1 rect e = pointerPosition c2 rect e.
Proof. unfold pointerPosition. by intros -> ->. Qed.

Lemma strict_eq_true a b : strict_eq a b = true ↔ a = b.
Proof. unfold strict_eq. apply bool_decide_eq_true. Qed.

Lemma strict_eq_false a b : strict_eq a b = false ↔ a ≠ b.
Proof. unfold strict_eq. apply bool_decide_eq_false. Qed.

(** The mousemove listener on a built view. *)
Lemma onMouseMove_built data rect e st :
  Built st →
  let found := resolvedHit st rect e in
  ∃ st', onMouseMove data rect e st = Ok st' ∧ Built st'
    ∧ hoveredNode st' = found
    ∧ graphPositions st' = graphPositions st
    ∧ graphNodeList st' = graphNodeList st
    ∧ (found = hoveredNode st → st' = st)
    ∧ (found ≠ hoveredNode st → calls st' = calls st ++ [RedrawGraph])
    ∧ ∀ rect' e', resolvedHit st' rect' e' = resolvedHit st rect' e'.
Proof.
  intros Hb. cbv zeta. pose proof Hb as [(c & Hc & Hw & Hh) Hn Hp].
  unfold onMouseMove, resolvedHit. rewrite Hc.
  rewrite (findNode_lastHit _ _ _ None Hp).
  set (found := lastHit _ _ _).
  replace (match found with Some found0 => Some found0 | None => None end)
    with found by (by destruct found).
  destruct (strict_eq found (hoveredNode st)) eqn:Heq; simpl.
  - apply strict_eq_true in Heq. exists st. rewrite Hc. by split_and!.
  - apply strict_eq_false in Heq.
    destruct (callRedrawGraph_built data (set_hoveredNode found st)
                (Built_set_hoveredNode _ _ Hb))
      as (c0 & c' & Hc0 & _ & (Hw' & Hh' & _) & ->).
    simpl in Hc0. simplify_eq. eexists. split; [done|]. simpl.
    split_and!; try done.
    + split; simpl; [|done..]. exists c'. split_and!; congruence.
    + intros rect' e'. by rewrite (pointerPosition_size _ _ rect' e' Hw' Hh').
Qed.

Lemma onMouseLeave_built data st :
  Built st →
  ∃ st', onMouseLeave data st = Ok st' ∧ Built st' ∧ hoveredNode st' = None
    ∧ calls st' = calls st ++ [RedrawGraph].
Proof.
  intros Hb. pose proof Hb as [(c & Hc & _) _ _].
  unfold onMouseLeave. rewrite Hc.
  destruct (callRedrawGraph_Built data (set_hoveredNode None st)
              (Built_set_hoveredNode _ _ Hb))
    as (st' & -> & Hb' & _ & _ & Hh & Hcalls).
  exists st'. by split_and!.
Qed.

End view.

(** * The claims of the specification *)

Lemma Built_of_drawMSTGraph `{Runtime} data st0 st :
  mstEdges data ≠ [] → drawMSTGraph true data st0 = Ok st → Built st.
Proof.
  intros Hne Hrun.
  destruct (drawMSTGraph_builds data st0 Hne) as (st' & Hst' & Hb & _).
  cbv zeta in Hst'. congruence.
Qed.

Lemma Demo_view_built : Built Demo.view.
Proof.
  apply (Built_of_drawMSTGraph (H := Demo.runtime) Demo.data initialView).
  - discriminate.
  - vm_compute. reflexivity.
Qed.

Lemma Demo_view_canvas : graphCanvas Demo.view = Some Demo.canvas.
Proof. vm_compute. reflexivity. Qed.

(** C1.  On a built view, for every pointer-move event: take the client
    coordinates relative to the displayed rectangle and multiply them by
    intrinsic size over displayed size, and call a node within reach when
    the Euclidean distance from that point to its position is at most 20.
    The hit-test loop returns, and the listener leaves in [hoveredNode],
    the last node of [graphNodeList] within reach: a node is the result
    exactly when it is within reach and no node after it in the list is,
    and there is no result exactly when no node is within reach, which is
    so when every node is farther than 20 away.  A pointer exactly at the
    (finite) position of a node has that node within reach, so some node is
    found. *)
Theorem C1_hover_resolves_to_last_hit `{Runtime} (data : StockData)
    (st : View) (canvas : Canvas) (rect : DOMRect.t) (e : MouseEvent) :
  Built st → graphCanvas st = Some canvas →
  let scaleX := (width canvas / DOMRect.width rect)%float in
  let scaleY := (height canvas / DOMRect.height rect)%float in
  let pointer := {| x := ((clientX e - DOMRect.left rect) * scaleX)%float;
                    y := ((clientY e - DOMRect.top rect) * scaleY)%float |} in
  let distance (pos : Point) :=
    Math_sqrt ((x pointer - x pos) * (x pointer - x pos)
               + (y pointer - y pos) * (y pointer - y pos))%float in
  let positions := graphPositions st in
  let nodes := graphNodeList st in
  let withinReach (node : string) :=
    ∃ pos, positions !! node = Some pos ∧ (distance pos <=? 20)%float = true in
  ∃ st', onMouseMove data rect e st = Ok st'
    ∧ findNode positions pointer nodes None = Ok (hoveredNode st')
    ∧ hoveredNode st' = lastHit positions pointer nodes
    ∧ (∀ found, hoveredNode st' = Some found
         ↔ withinReach found
           ∧ ∃ before after, nodes = before ++ found :: after
               ∧ ∀ node, node ∈ after → ¬ withinReach node)
    ∧ (hoveredNode st' = None ↔ ∀ node, node ∈ nodes → ¬ withinReach node)
    ∧ ((∀ node pos, node ∈ nodes → positions !! node = Some pos →
          (20 <? distance pos)%float = true) →
       hoveredNode st' = None)
    ∧ (∀ node pos, node ∈ nodes → positions !! node = Some pos →
         pointer = pos → is_finite (x pos) = true → is_finite (y pos) = true →
         withinReach node ∧ is_Some (hoveredNode st')).
Proof.
  intros Hb Hc scaleX scaleY pointer distance positions nodes withinReach.
  pose proof Hb as [_ _ Hp]. fold positions nodes in Hp.
  assert (∀ node, hits positions pointer node = true ↔ withinReach node)
    as Hreach.
  { intros node. unfold hits, withinReach.
    destruct (positions !! node) as [pos|]; [|by split; [|intros (? & ? & _)]].
    split; [intros Hhit; by exists pos|]. by intros (? & [= <-] & ?). }
  assert (∀ node, hits positions pointer node = false ↔ ¬ withinReach node)
    as Hout.
  { intros node. rewrite <- Hreach. by destruct (hits positions pointer node). }
  destruct (onMouseMove_built data rect e st Hb) as (st' & Hrun & _ & Hh & _).
  assert (hoveredNode st' = lastHit positions pointer nodes) as Hlast.
  { rewrite Hh. unfold resolvedHit. by rewrite Hc. }
  assert (hoveredNode st' = None ↔ ∀ node, node ∈ nodes → ¬ withinReach node)
    as Hnone.
  { rewrite Hlast, lastHit_None. by setoid_rewrite Hout. }
  exists st'. split; [done|]. split.
  { rewrite findNode_lastHit, Hlast by done. by destruct (lastHit _ _ _). }
  split; [done|]. split.
  { intros found. rewrite Hlast. split.
    - intros (Hhit & before & after & Hnodes & Hafter)%lastHit_Some.
      split; [by apply Hreach|]. exists before, after. split; [done|].
      intros node Hnode. by apply Hout, Hafter.
    - intros (Hfound & before & after & Hnodes & Hafter).
      fold nodes. rewrite Hnodes. unfold lastHit.
      rewrite filter_app, filter_cons_True by (by apply Hreach).
      replace (filter _ after) with (@nil string).
      + by rewrite last_snoc.
      + clear Hnodes. induction after as [|node after IH]; [done|].
        rewrite filter_cons_False.
        * apply IH. intros ? ?. apply Hafter. by right.
        * intros Hhit. apply (Hafter node); [by left|by apply Hreach]. }
  split; [done|]. split.
  { intros Hfar. apply Hnone. intros node Hnode (pos & Hpos & Hle).
    pose proof (ltb_leb_false _ _ (Hfar node pos Hnode Hpos)). congruence. }
  intros node pos Hnode Hpos Heq Hx Hy.
  assert (withinReach node) as Hin.
  { exists pos. split; [done|]. unfold distance. rewrite Heq.
    apply (isHit_center pos Hx Hy). }
  split; [done|].
  destruct (hoveredNode st') eqn:Hhov; [by eexists|].
  by destruct (proj1 Hnone eq_refl node Hnode).
Qed.

(** On the demo graph displayed at half its size, a pointer over node C
    focuses C: the client point (166.25, 69.22) is (312.5, 98.44) on the
    canvas, within 20 of C and of no other node. *)
Lemma C1_witness :
  ∃ st', onMouseMove (H := Demo.runtime) Demo.data Demo.halfRect
           {| clientX := 166.25; clientY := 69.22 |} Demo.view = Ok st'
         ∧ hoveredNode st' = Some "C"%string.
Proof.
  destruct (C1_hover_resolves_to_last_hit (H := Demo.runtime) Demo.data
              Demo.view Demo.canvas Demo.halfRect
              {| clientX := 166.25; clientY := 69.22 |}
              Demo_view_built Demo_view_canvas)
    as (st' & Hrun & _ & Hh & _).
  exists st'. split; [exact Hrun|]. rewrite Hh. vm_compute. reflexivity.
Defined.

(** C2.  On a built view a pointer-move event repaints exactly when the
    node it resolves to differs from [hoveredNode]: then [redrawGraph] is
    called once and [hoveredNode] is updated; otherwise nothing changes.
    Two consecutive events that resolve to the same node (or both to none)
    repaint at most once. *)
Theorem C2_repaint_only_on_change `{Runtime} (data : StockData) (st : View)
    (rect : DOMRect.t) (e : MouseEvent) :
  Built st →
  let found := resolvedHit st rect e in
  (∃ st', onMouseMove data rect e st = Ok st'
     ∧ hoveredNode st' = found
     ∧ (found ≠ hoveredNode st → redraws st' = S (redraws st))
     ∧ (found = hoveredNode st → st' = st)
     ∧ (redraws st' = S (redraws st) ↔ found ≠ hoveredNode st))
  ∧ (∀ rect2 e2, resolvedHit st rect2 e2 = found →
       ∃ st2, dispatchAll data [MouseMove rect e; MouseMove rect2 e2] st
              = Ok st2
            ∧ redraws st2 ≤ S (redraws st)).
Proof.
  intros Hb found.
  destruct (onMouseMove_built data rect e st Hb)
    as (st' & Hrun & Hb' & Hh & _ & _ & Hsame & Hdiff & Hres).
  fold found in Hh, Hsame, Hdiff.
  assert (found ≠ hoveredNode st → redraws st' = S (redraws st)) as Hrep.
  { intros Hne. unfold redraws. rewrite (Hdiff Hne), filter_app, length_app.
    simpl. lia. }
  split.
  { exists st'. split_and!; try done. split; [|done].
    intros Hs Heq. rewrite (Hsame Heq) in Hs. lia. }
  intros rect2 e2 Hres2.
  destruct (onMouseMove_built data rect2 e2 st' Hb')
    as (st2 & Hrun2 & _ & _ & _ & _ & Hsame2 & _).
  exists st2. simpl. rewrite Hrun, Hrun2. split; [done|].
  rewrite Hsame2 by (by rewrite Hres, Hres2, Hh).
  destruct (decide (found = hoveredNode st)) as [Heq|Hne].
  - rewrite (Hsame Heq). lia.
  - rewrite (Hrep Hne). lia.
Qed.

(** On the demo graph: the first move onto A repaints, the second move on
    A does not. *)
Lemma C2_witness :
  ∃ st2, dispatchAll (H := Demo.runtime) Demo.data
           [MouseMove Demo.fullRect {| clientX := 575; clientY := 250 |};
            MouseMove Demo.fullRect {| clientX := 580; clientY := 255 |}]
           Demo.view = Ok st2
         ∧ redraws st2 ≤ S (redraws Demo.view).
Proof.
  destruct (C2_repaint_only_on_change (H := Demo.runtime) Demo.data Demo.view
              Demo.fullRect {| clientX := 575; clientY := 250 |}
              Demo_view_built) as [_ Htwice].
  apply (Htwice Demo.fullRect {| clientX := 580; clientY := 255 |}).
  vm_compute. reflexivity.
Defined.

(** C3.  For every edge list, the node list the builder produces has no
    duplicates, holds exactly the sources and targets of the edges, and
    lists them in first-seen order: it is the endpoint sequence with each
    value kept where it first occurs, strictly increasing in the index of
    the first occurrence.  With a placeholder and at least one edge it is
    what [drawMSTGraph] stores in [graphNodeList]. *)
Theorem C3_node_list_unique_endpoints `{Runtime} (data : StockData)
    (st : View) :
  let edges := mstEdges data in
  let nodes := collectNodes edges in
  NoDup nodes
  ∧ (∀ a, a ∈ nodes ↔ ∃ edge, edge ∈ edges ∧ (a = u edge ∨ a = v edge))
  ∧ nodes = firstSeen (endpoints edges)
  ∧ StronglySorted (λ a b, firstIndex a (endpoints edges)
                           < firstIndex b (endpoints edges)) nodes
  ∧ (edges ≠ [] → ∃ st', drawMSTGraph true data st = Ok st'
                         ∧ graphNodeList st' = nodes).
Proof.
  intros edges nodes. split_and!.
  - apply collectNodes_NoDup.
  - intros a. apply collectNodes_elem.
  - apply collectNodes_firstSeen.
  - unfold nodes. rewrite collectNodes_firstSeen. apply firstSeen_sorted.
  - intros Hne.
    destruct (drawMSTGraph_builds data st Hne) as (st' & Hrun & _ & Hn & _).
    by exists st'.
Qed.




(** The click listener, where the hovered node is not the empty string. *)
Lemma onClick_focused (st : View) (node : string) :
  is_Some (graphCanvas st) → hoveredNode st = Some node → node ≠ ""%string →
  calls (onClick st) = calls st ++ [ShowStockDetails node].
Proof.
  intros [c Hc] Hh Hne. unfold onClick. rewrite Hc, Hh. simpl.
  destruct (String.eqb_spec node ""); [done|]. done.
Qed.

Lemma onClick_idle (st : View) : hoveredNode st = None → onClick st = st.
Proof. intros Hh. unfold onClick. rewrite Hh. by destruct (graphCanvas st). Qed.

(** C5, on the code.  The loader stores the empty string for a blank
    ticker.  When the hovered node is the empty string the click listener
    calls nothing, whatever the rest of the view: its truthiness test takes
    the empty string for no node.  With the edge ("", AAPL) the node "" is
    placed at (575, 250); a pointer there makes it the hovered node, and the
    click that follows calls [showStockDetails] zero times. *)
Theorem C5_click_on_blank_node :
  (∀ canvas positions nodes trace,
     let st := {| graphCanvas := canvas; graphPositions := positions;
                  graphNodeList := nodes; hoveredNode := Some ""%string;
                  calls := trace |} in
     onClick st = st)
  ∧ ∃ st, onMouseMove (H := Demo.runtime) Demo.blankData Demo.fullRect
            {| clientX := 575; clientY := 250 |} Demo.blankView = Ok st
      ∧ hoveredNode st = Some ""%string
      ∧ onClick st = st
      ∧ selections (onClick st) = 0.
Proof.
  split.
  - intros canvas positions nodes trace. by destruct canvas.
  - eexists. vm_compute. by split_and!.
Qed.

(** C6.  For an edge whose endpoints have positions: [weightValue] is the
    distance when that is a number other than NaN and zero, and the
    correlation otherwise; unless it is NaN, the repaint of the edge ends
    with that value, printed with two decimals, at the midpoint of the
    edge, after the stroke and the background patch.  With distance 0 or
    [undefined] and correlation 0.42 the text is 0.42. *)
Theorem C6_edge_weight_fallback `{Runtime} (positions : gmap string Point)
    (hoveredNode : option string) (edge : Edge) (pu pv : Point) (c : Canvas) :
  positions !! u edge = Some pu → positions !! v edge = Some pv →
  let w := match definedNonZero (distance edge) with
           | Some d => d
           | None => corr edge
           end in
  weightValue edge = num w
  ∧ (is_nan w = false →
     ∃ c' line patch style,
       drawEdge positions hoveredNode edge c = Ok (tt, c')
       ∧ pixels c'
         = pixels c
           ++ [line; patch;
               FilledText (toFixed w 2) ((x pu + x pv) / 2)%float
                 ((y pu + y pv) / 2)%float style (Segoe "10px") "center"
                 "middle"])
  ∧ (distance edge = num 0 ∨ distance edge = undefined →
     corr edge = 0.42%float →
     w = 0.42%float ∧ toFixed w 2 = "0.42"%string).
Proof.
  intros Hu Hv w.
  assert (weightValue edge = num w) as Hw.
  { unfold weightValue, w, definedNonZero, isNaN, strict_ne_zero, ToNumber.
    destruct (distance edge) as [|d]; [done|].
    by destruct (is_nan d), (d =? 0)%float. }
  split; [done|]. split.
  - intros Hnan. rewrite (drawEdge_own _ _ _ _ _ Hu Hv).
    unfold strokeEdge, drawEdgeLabel. rewrite Hw.
    unfold isNaN, ToNumber. rewrite Hnan. simpl negb. cbv iota.
    unfold set_strokeStyle at 1.
    destruct (valid_style _); eexists _, _, _, _; run_draw;
      (split; [reflexivity|]); rewrite <- !app_assoc; reflexivity.
  - intros Hd Hc. assert (w = 0.42%float) as ->.
    { unfold w. by destruct Hd as [-> | ->]. }
    split; [done|]. by vm_compute.
Qed.

(** On the demo graph: the edge A-B has distance 0.3. *)
Lemma C6_witness :
  weightValue {| u := "A"; v := "B"; corr := 0.8; distance := num 0.3 |}
  = num 0.3.
Proof.
  refine (proj1 (C6_edge_weight_fallback (H := Demo.runtime)
                   (graphPositions Demo.view) None
                   {| u := "A"; v := "B"; corr := 0.8; distance := num 0.3 |}
                   {| x := 575; y := 250 |}
                   {| x := 312.5; y := 401.55444566227675 |}
                   Demo.canvas _ _)); vm_compute; reflexivity.
Defined.

(** Where the hovered node is not the empty string, an edge is
    highlighted exactly when one of its endpoints is the hovered node. *)
Lemma isHighlighted_iff (hoveredNode : option string) (edge : Edge) :
  hoveredNode ≠ Some ""%string →
  isHighlighted hoveredNode edge = true
  ↔ hoveredNode = Some (u edge) ∨ hoveredNode = Some (v edge).
Proof.
  intros Hne. unfold isHighlighted, truthy.
  rewrite andb_true_iff, orb_true_iff, !strict_eq_true.
  destruct hoveredNode as [h|]; [|naive_solver].
  destruct (String.eqb_spec h ""); [naive_solver|]. simpl. naive_solver.
Qed.

(** The stroke of an edge: full opacity and width 3 when highlighted,
    otherwise opacity [Math.max(0.3, |corr|)], which is never below 0.3,
    and width 2. *)
Lemma edge_stroke_style (hoveredNode : option string) (edge : Edge) :
  (isHighlighted hoveredNode edge = true →
   edgeAlpha hoveredNode edge = 1%float
   ∧ edgeLineWidth hoveredNode edge = 3%float)
  ∧ (isHighlighted hoveredNode edge = false →
     edgeAlpha hoveredNode edge = Math_max 0.3 (Math_abs (corr edge))
     ∧ edgeLineWidth hoveredNode edge = 2%float
     ∧ (edgeAlpha hoveredNode edge <? 0.3)%float = false
     ∧ (is_nan (corr edge) = false →
        (0.3 <=? edgeAlpha hoveredNode edge)%float = true)).
Proof.
  unfold edgeAlpha, edgeLineWidth. split; intros ->; [done|].
  split_and!; try done.
  - apply Math_max_floor.
  - intros Hc. apply Math_max_floor_le. by rewrite is_nan_abs.
Qed.

(** The first thing the repaint of an edge with a finite correlation
    leaves on the surface is its line, in that style. *)
Lemma drawEdge_stroke `{Runtime} (positions : gmap string Point)
    (hoveredNode : option string) (edge : Edge) (pu pv : Point) (c : Canvas) :
  positions !! u edge = Some pu → positions !! v edge = Some pv →
  is_finite (corr edge) = true →
  ∃ c' rest, drawEdge positions hoveredNode edge c = Ok (tt, c')
    ∧ pixels c'
      = pixels c
        ++ Stroked [MoveTo (x pu) (y pu); LineTo (x pv) (y pv)]
             (rgba 88 166 255 (edgeAlpha hoveredNode edge))
             (edgeLineWidth hoveredNode edge) :: rest.
Proof.
  intros Hu Hv Hfin. rewrite (drawEdge_own _ _ _ _ _ Hu Hv).
  unfold strokeEdge, drawEdgeLabel.
  unfold set_strokeStyle at 1. cbn [valid_style].
  rewrite (edgeAlpha_finite hoveredNode edge Hfin).
  destruct (negb (isNaN (weightValue edge)));
    eexists _, _; run_draw; (split; [reflexivity|]);
    rewrite <- ?app_assoc; reflexivity.
Qed.

(** C7, on the code.  When the hovered node is the empty string no
    edge is highlighted, not even one that ends in it: every edge is stroked
    with opacity [Math.max(0.3, |corr|)] and width 2.  With the edge
    ("", AAPL, corr 0.5) and the pointer on the node "": that node is the
    hovered node and is drawn as such (radius 20, accent outline of width
    3), yet the edge that ends in it is stroked with opacity 0.5 and width
    2, not with opacity 1 and width 3. *)
Theorem C7_edge_of_blank_node_not_highlighted :
  (∀ edge, isHighlighted (Some ""%string) edge = false
           ∧ edgeAlpha (Some ""%string) edge
             = Math_max 0.3 (Math_abs (corr edge))
           ∧ edgeLineWidth (Some ""%string) edge = 2%float)
  ∧ ∃ st c, onMouseMove (H := Demo.runtime) Demo.blankData Demo.fullRect
              {| clientX := 575; clientY := 250 |} Demo.blankView = Ok st
      ∧ hoveredNode st = Some ""%string
      ∧ graphCanvas st = Some c
      ∧ pixels c !! 0
        = Some (Stroked [MoveTo 575 250; LineTo 225 250]
                  (rgba 88 166 255 0.5) 2)
      ∧ pixels c !! 4
        = Some (Stroked [Arc 575 250 20 0 (2 * Math_PI)%float]
                  (css "#58a6ff") 3).
Proof.
  split.
  - done.
  - eexists _, _. vm_compute. by split_and!.
Qed.

(** C8.  With an empty edge list [drawMSTGraph] returns at its guard:
    it throws nothing and leaves the view as it was; called on the freshly
    loaded page, there is no canvas, no node and no call of [redrawGraph]
    afterwards.  The node set of an empty edge list is empty. *)
Theorem C8_empty_edge_list `{Runtime} (placeholder : bool)
    (recs : list Recommendation) (st : View) :
  let data := {| recommendations := recs; mstEdges := [] |} in
  drawMSTGraph placeholder data st = Ok st
  ∧ drawMSTGraph placeholder data initialView = Ok initialView
  ∧ graphCanvas initialView = None
  ∧ graphNodeList initialView = []
  ∧ redraws initialView = 0
  ∧ collectNodes (mstEdges data) = [].
Proof.
  cbv zeta. unfold drawMSTGraph. simpl. rewrite !orb_true_r. done.
Qed.

(** C9.  On a built view, with edges whose correlations are finite
    numbers, a repaint returns, and repainting again changes nothing: the
    canvas after the second repaint is the canvas after the first.  What the
    repaint leaves on the surface, and the drawing state it ends in, are the
    same from whatever contents, state, path and saved states the canvas had
    before. *)
Theorem C9_repaint_idempotent `{Runtime} (data : StockData) (st : View) :
  Built st →
  Forall (λ edge, is_finite (corr edge) = true) (mstEdges data) →
  ∃ st1 c1,
    callRedrawGraph data st = Ok st1
    ∧ graphCanvas st1 = Some c1
    ∧ (∃ st2, callRedrawGraph data st1 = Ok st2
              ∧ graphCanvas st2 = Some c1)
    ∧ (∀ c0, width c0 = graphWidth → height c0 = graphHeight →
         ∃ st1' c1',
           callRedrawGraph data
             {| graphCanvas := Some c0; graphPositions := graphPositions st;
                graphNodeList := graphNodeList st;
                hoveredNode := hoveredNode st; calls := calls st |}
           = Ok st1'
           ∧ graphCanvas st1' = Some c1'
           ∧ pixels c1' = pixels c1 ∧ state c1' = state c1
           ∧ path c1' = path c1).
Proof.
  intros Hb Hfin. pose proof Hb as [(c & Hc & Hw & Hh) Hn Hp].
  pose proof (redrawGraph_preserves data _ _ (hoveredNode st) Hfin Hn Hp)
    as Hpres.
  destruct (Hpres c c) as (c1 & _ & Hrun & _ & _ & (Hw1 & Hh1 & Hs1) & _);
    [done|].
  exists {| graphCanvas := Some c1; graphPositions := graphPositions st;
            graphNodeList := graphNodeList st; hoveredNode := hoveredNode st;
            calls := calls st ++ [RedrawGraph] |}, c1.
  split_and!.
  - unfold callRedrawGraph. by rewrite Hc, Hrun.
  - done.
  - destruct (Hpres c c1) as (c1' & c2 & Hrun' & Hrun2 & Hsame & _ & Hf2).
    { unfold sized. split_and!; congruence. }
    assert (c1' = c1) as -> by congruence.
    assert (c2 = c1) as ->.
    { symmetry. apply same_drawing_eq; [done|].
      by destruct Hf2 as (_ & _ & ->). }
    eexists. unfold callRedrawGraph. simpl. rewrite Hrun2. done.
  - intros c0 Hw0 Hh0.
    destruct (Hpres c0 c) as (c1' & c1'' & Hrun0 & Hrun' & Hsame & _).
    { unfold sized. by split_and!. }
    assert (c1'' = c1) as -> by congruence.
    destruct Hsame as ((_ & Hpx) & Hst & Hpa).
    eexists _, c1'. unfold callRedrawGraph. simpl. rewrite Hrun0.
    by split_and!.
Qed.

(** On the demo graph, the repaint of the built view on a blank canvas
    shows what the view already shows. *)
Lemma C9_witness :
  ∃ st1 c1, callRedrawGraph (H := Demo.runtime) Demo.data Demo.view = Ok st1
    ∧ graphCanvas st1 = Some c1
    ∧ (∃ st2, callRedrawGraph (H := Demo.runtime) Demo.data st1 = Ok st2
              ∧ graphCanvas st2 = Some c1).
Proof.
  destruct (C9_repaint_idempotent (H := Demo.runtime) Demo.data Demo.view
              Demo_view_built) as (st1 & c1 & H1 & H2 & H3 & _).
  - repeat constructor.
  - exists st1, c1. split; [exact H1|]. split; [exact H2|exact H3].
Defined.

Lemma dispatch_built `{Runtime} data ev st :
  Built st → ∃ st', dispatch data ev st = Ok st' ∧ Built st'.
Proof.
  intros Hb. destruct ev as [rect e| |]; simpl.
  - destruct (onMouseMove_built data rect e st Hb) as (st' & ? & ? & _).
    by exists st'.
  - destruct (onMouseLeave_built data st Hb) as (st' & ? & ? & _).
    by exists st'.
  - eexists. split; [done|]. destruct Hb as [(c & Hc & ?) ? ?].
    unfold onClick. rewrite Hc.
    destruct (truthy (hoveredNode st)); [|split; eauto].
    destruct (hoveredNode st); split; eauto.
Qed.

Lemma dispatchAll_built `{Runtime} data evs st :
  Built st → ∃ st', dispatchAll data evs st = Ok st' ∧ Built st'.
Proof.
  revert st. induction evs as [|ev evs IH]; intros st Hb; simpl.
  - by exists st.
  - destruct (dispatch_built data ev st Hb) as (st1 & -> & Hb1).
    by apply IH.
Qed.

(** C10.  Once [drawMSTGraph] has built the graph (a placeholder and at
    least one edge), every node of [graphNodeList] has a position in
    [graphPositions]; so the hit-test loop returns for every pointer
    position, the mousemove listener returns for every event, and this
    stays so after any sequence of pointer events. *)
Theorem C10_hit_test_total `{Runtime} (data : StockData) (st0 : View) :
  mstEdges data ≠ [] →
  ∃ st, drawMSTGraph true data st0 = Ok st
    ∧ (∀ node, node ∈ graphNodeList st → is_Some (graphPositions st !! node))
    ∧ (∀ pointer, ∃ found,
         findNode (graphPositions st) pointer (graphNodeList st) None
         = Ok found)
    ∧ (∀ rect e, ∃ st', onMouseMove data rect e st = Ok st')
    ∧ (∀ evs, ∃ st', dispatchAll data evs st = Ok st'
         ∧ (∀ node, node ∈ graphNodeList st' →
              is_Some (graphPositions st' !! node))
         ∧ ∀ pointer, ∃ found,
             findNode (graphPositions st') pointer (graphNodeList st') None
             = Ok found).
Proof.
  intros Hne.
  destruct (drawMSTGraph_builds data st0 Hne) as (st & Hrun & Hb & _).
  exists st. split; [done|].
  assert (∀ st', Built st' →
            (∀ node, node ∈ graphNodeList st' →
               is_Some (graphPositions st' !! node))
            ∧ ∀ pointer, ∃ found,
                findNode (graphPositions st') pointer (graphNodeList st') None
                = Ok found) as Htotal.
  { intros st' [_ _ Hp]. split; [done|]. intros pointer.
    rewrite findNode_lastHit by done. by eexists. }
  destruct (Htotal st Hb) as [Hp Hf]. split_and!; try done.
  - intros rect e.
    destruct (onMouseMove_built data rect e st Hb) as (st' & ? & _).
    by exists st'.
  - intros evs. destruct (dispatchAll_built data evs st Hb) as (st' & ? & Hb').
    exists st'. split; [done|]. by apply Htotal.
Qed.

(** On the demo graph, after its two edges are loaded. *)
Lemma C10_witness :
  ∃ st, drawMSTGraph (H := Demo.runtime) true Demo.data initialView = Ok st
    ∧ ∀ node, node ∈ graphNodeList st → is_Some (graphPositions st !! node).
Proof.
  destruct (C10_hit_test_total (H := Demo.runtime) Demo.data initialView)
    as (st & Hrun & Hp & _).
  - discriminate.
  - exists st. split; [exact Hrun|exact Hp].
Defined.

(** * Further properties of the view *)

Lemma lastHit_elem positions pointer nodes found :
  lastHit positions pointer nodes = Some found → found ∈ nodes.
Proof.
  unfold lastHit. intros Hlast.
  apply last_Some_elem_of, list_elem_of_filter in Hlast. tauto.
Qed.

Lemma selections_record_redraw st :
  selections (record_call RedrawGraph st) = selections st.
Proof.
  unfold selections, record_call. simpl.
  rewrite filter_app, length_app. simpl. lia.
Qed.

Lemma onMouseLeave_layout `{Runtime} (data : StockData) (st st' : View) :
  Built st → onMouseLeave data st = Ok st' →
  graphPositions st' = graphPositions st
  ∧ graphNodeList st' = graphNodeList st.
Proof.
  intros Hb. pose proof Hb as [(c & Hc & _) _ _].
  unfold onMouseLeave. rewrite Hc.
  destruct (callRedrawGraph_Built data (set_hoveredNode None st)
              (Built_set_hoveredNode _ _ Hb))
    as (st'' & -> & _ & Hp & Hn & _).
  intros [= <-]. done.
Qed.

Lemma onClick_fields (st : View) :
  graphCanvas (onClick st) = graphCanvas st
  ∧ graphPositions (onClick st) = graphPositions st
  ∧ graphNodeList (onClick st) = graphNodeList st
  ∧ hoveredNode (onClick st) = hoveredNode st.
Proof.
  unfold onClick. destruct (graphCanvas st) eqn:Hc; [|done].
  destruct (truthy (hoveredNode st)); [|done].
  by destruct (hoveredNode st) eqn:Hh.
Qed.

(** X1.  On a built view the mouseleave listener returns, clears
    [hoveredNode] and calls [redrawGraph] exactly once, also when no node
    was hovered; it calls nothing else. *)
Theorem X1_mouseleave_clears_and_repaints `{Runtime} (data : StockData)
    (st : View) :
  Built st →
  ∃ st', onMouseLeave data st = Ok st'
    ∧ hoveredNode st' = None
    ∧ calls st' = calls st ++ [RedrawGraph]
    ∧ redraws st' = S (redraws st)
    ∧ selections st' = selections st
    ∧ graphPositions st' = graphPositions st
    ∧ graphNodeList st' = graphNodeList st.
Proof.
  intros Hb. pose proof Hb as [(c & Hc & _) _ _].
  unfold onMouseLeave. rewrite Hc.
  destruct (callRedrawGraph_Built data (set_hoveredNode None st)
              (Built_set_hoveredNode _ _ Hb))
    as (st' & -> & _ & Hp & Hn & Hh & Hcalls).
  exists st'. simpl in *. split_and!; try done.
  - unfold redraws. rewrite Hcalls, filter_app, length_app. simpl. lia.
  - unfold selections. rewrite Hcalls, filter_app, length_app. simpl. lia.
Qed.

(** The freshly built demo graph has no hovered node; leaving it repaints
    all the same. *)
Lemma X1_witness :
  ∃ st', onMouseLeave (H := Demo.runtime) Demo.data Demo.view = Ok st'
    ∧ hoveredNode Demo.view = None
    ∧ redraws st' = S (redraws Demo.view).
Proof.
  destruct (X1_mouseleave_clears_and_repaints (H := Demo.runtime) Demo.data
              Demo.view Demo_view_built) as (st' & Hrun & _ & _ & Hr & _).
  exists st'. split; [exact Hrun|]. split; [|exact Hr]. vm_compute. reflexivity.
Defined.

(** X2.  The click listener never repaints and changes neither the
    canvas, the layout nor the hovered node.  With a hovered node other than
    the empty string it calls [showStockDetails] once, with that node; with
    no hovered node, or the empty string, it does nothing at all. *)
Theorem X2_click_selects_hovered_node (st : View) :
  graphCanvas (onClick st) = graphCanvas st
  ∧ graphPositions (onClick st) = graphPositions st
  ∧ graphNodeList (onClick st) = graphNodeList st
  ∧ hoveredNode (onClick st) = hoveredNode st
  ∧ redraws (onClick st) = redraws st
  ∧ (∀ node, is_Some (graphCanvas st) → hoveredNode st = Some node →
       node ≠ ""%string →
       calls (onClick st) = calls st ++ [ShowStockDetails node]
       ∧ selections (onClick st) = S (selections st))
  ∧ (hoveredNode st = None ∨ hoveredNode st = Some ""%string →
     onClick st = st).
Proof.
  assert (∀ node, redraws (record_call (ShowStockDetails node) st)
                  = redraws st) as Hr.
  { intros node. unfold redraws, record_call. simpl.
    rewrite filter_app, length_app. simpl. lia. }
  split_and!.
  1-5: unfold onClick; destruct (graphCanvas st) eqn:Hc; [|done];
       destruct (truthy (hoveredNode st)); [|done];
       destruct (hoveredNode st) eqn:Hh; rewrite ?Hr; done.
  - intros node Hc Hh Hne.
    rewrite (onClick_focused st node Hc Hh Hne). split; [done|].
    unfold selections. rewrite (onClick_focused st node Hc Hh Hne).
    rewrite filter_app, length_app. simpl. lia.
  - intros [Hh|Hh]; unfold onClick; rewrite Hh; by destruct (graphCanvas st).
Qed.

Lemma dispatch_invariants `{Runtime} data ev st :
  Built st →
  ∃ st', dispatch data ev st = Ok st' ∧ Built st'
    ∧ graphPositions st' = graphPositions st
    ∧ graphNodeList st' = graphNodeList st
    ∧ (hoverInList st → hoverInList st')
    ∧ (∀ c, graphCanvas st = Some c →
         ∃ c', graphCanvas st' = Some c' ∧ width c' = width c
               ∧ height c' = height c).
Proof.
  intros Hb. destruct ev as [rect e| |]; simpl.
  - destruct (onMouseMove_built data rect e st Hb)
      as (st' & Hrun & Hb' & Hh & Hp & Hn & _).
    exists st'. split_and!; try done.
    + intros _. unfold hoverInList. rewrite Hh, Hn. unfold resolvedHit.
      destruct (graphCanvas st) as [c|]; [|done].
      destruct (lastHit _ _ _) as [found|] eqn:Hlast; [|done].
      by apply lastHit_elem in Hlast.
    + intros c Hc. destruct Hb as [(c0 & Hc0 & Hw0 & Hh0) _ _].
      destruct Hb' as [(c' & Hc' & Hw' & Hh') _ _]. simplify_eq.
      exists c'. split_and!; congruence.
  - destruct (onMouseLeave_built data st Hb) as (st' & Hrun & Hb' & Hh & _).
    destruct (onMouseLeave_layout data st st' Hb Hrun) as [Hp Hn].
    exists st'. split_and!; try done.
    + intros _. unfold hoverInList. by rewrite Hh.
    + intros c Hc. destruct Hb as [(c0 & Hc0 & Hw0 & Hh0) _ _].
      destruct Hb' as [(c' & Hc' & Hw' & Hh') _ _]. simplify_eq.
      exists c'. split_and!; congruence.
  - destruct (dispatch_built data Click st Hb) as (st' & Hrun & Hb').
    simpl in Hrun. injection Hrun as <-.
    exists (onClick st). split; [done|]. split; [done|].
    destruct (onClick_fields st) as (Hc & Hp & Hn & Hh).
    unfold hoverInList. rewrite Hc, Hp, Hn, Hh. split_and!; eauto.
Qed.

Lemma dispatchAll_invariants `{Runtime} data evs st :
  Built st →
  ∃ st', dispatchAll data evs st = Ok st' ∧ Built st'
    ∧ graphPositions st' = graphPositions st
    ∧ graphNodeList st' = graphNodeList st
    ∧ (hoverInList st → hoverInList st')
    ∧ (∀ c, graphCanvas st = Some c →
         ∃ c', graphCanvas st' = Some c' ∧ width c' = width c
               ∧ height c' = height c).
Proof.
  revert st. induction evs as [|ev evs IH]; intros st Hb; simpl.
  - exists st. split_and!; eauto.
  - destruct (dispatch_invariants data ev st Hb)
      as (st1 & -> & Hb1 & Hp1 & Hn1 & Hh1 & Hc1).
    destruct (IH st1 Hb1) as (st' & Hrun & Hb' & Hp & Hn & Hh & Hc).
    exists st'. split_and!; try done; try congruence.
    + tauto.
    + intros c Hcs. destruct (Hc1 c Hcs) as (c1 & Hc1' & Hw1 & Hh1').
      destruct (Hc c1 Hc1') as (c' & ? & ? & ?).
      exists c'. split_and!; congruence.
Qed.

(** X3.  [hoveredNode] is always [null] or a node of [graphNodeList]:
    this holds once the page has built its graph, and every pointer event
    on a built view keeps it. *)
Theorem X3_hovered_node_in_list `{Runtime} (data : StockData)
    (evs : list Event) :
  (∀ st, Built st → hoverInList st →
     ∃ st', dispatchAll data evs st = Ok st' ∧ hoverInList st')
  ∧ (mstEdges data ≠ [] →
     ∃ st st', drawMSTGraph true data initialView = Ok st
       ∧ dispatchAll data evs st = Ok st' ∧ hoverInList st').
Proof.
  split.
  - intros st Hb Hh.
    destruct (dispatchAll_invariants data evs st Hb)
      as (st' & Hrun & _ & _ & _ & Hh' & _).
    exists st'. split; [done|]. by apply Hh'.
  - intros Hne.
    destruct (drawMSTGraph_builds data initialView Hne)
      as (st & Hrun & Hb & _ & _ & Hh & _).
    destruct (dispatchAll_invariants data evs st Hb)
      as (st' & Hrun' & _ & _ & _ & Hh' & _).
    exists st, st'. split_and!; try done. apply Hh'.
    unfold hoverInList. by rewrite Hh.
Qed.

(** X4.  The layout is static: whatever pointer events a built view
    handles, [graphPositions], [graphNodeList] and the size of the canvas
    stay as the build left them. *)
Theorem X4_events_keep_layout `{Runtime} (data : StockData) (st : View)
    (canvas : Canvas) (evs : list Event) :
  Built st → graphCanvas st = Some canvas →
  ∃ st' canvas', dispatchAll data evs st = Ok st'
    ∧ graphPositions st' = graphPositions st
    ∧ graphNodeList st' = graphNodeList st
    ∧ graphCanvas st' = Some canvas'
    ∧ width canvas' = width canvas ∧ height canvas' = height canvas.
Proof.
  intros Hb Hc.
  destruct (dispatchAll_invariants data evs st Hb)
    as (st' & Hrun & _ & Hp & Hn & _ & Hsize).
  destruct (Hsize canvas Hc) as (c' & ? & ? & ?).
  exists st', c'. by split_and!.
Qed.

(** On the demo graph, after a move onto C, a click and a leave. *)
Lemma X4_witness :
  ∃ st', dispatchAll (H := Demo.runtime) Demo.data
           [MouseMove Demo.halfRect {| clientX := 166.25; clientY := 69.22 |};
            Click; MouseLeave] Demo.view = Ok st'
    ∧ graphPositions st' = graphPositions Demo.view
    ∧ graphNodeList st' = graphNodeList Demo.view.
Proof.
  destruct (X4_events_keep_layout (H := Demo.runtime) Demo.data Demo.view
              Demo.canvas
              [MouseMove Demo.halfRect
                 {| clientX := 166.25; clientY := 69.22 |}; Click; MouseLeave]
              Demo_view_built Demo_view_canvas)
    as (st' & c' & Hrun & Hp & Hn & _).
  exists st'. split; [exact Hrun|]. split; [exact Hp|exact Hn].
Defined.


(** After a move onto C and a click on the demo graph, C is hovered. *)
Lemma X3_witness :
  ∃ st st', drawMSTGraph (H := Demo.runtime) true Demo.data initialView = Ok st
    ∧ dispatchAll (H := Demo.runtime) Demo.data
        [MouseMove Demo.halfRect {| clientX := 166.25; clientY := 69.22 |};
         Click] st = Ok st'
    ∧ hoverInList st'.
Proof.
  apply (X3_hovered_node_in_list (H := Demo.runtime) Demo.data).
  discriminate.
Defined.

(** X5.  With a hovered node other than the empty string (or none), an
    edge with positioned endpoints and a finite correlation is first
    stroked from one endpoint to the other: with opacity 1 and width 3 when
    one of its endpoints is the hovered node, and otherwise with opacity
    [Math.max(0.3, |corr|)], which is never below 0.3, and width 2. *)
Theorem X5_edge_highlight `{Runtime} (positions : gmap string Point)
    (hoveredNode : option string) (edge : Edge) (pu pv : Point) (c : Canvas) :
  hoveredNode ≠ Some ""%string →
  positions !! u edge = Some pu → positions !! v edge = Some pv →
  is_finite (corr edge) = true →
  let ends := bool_decide (hoveredNode = Some (u edge)
                           ∨ hoveredNode = Some (v edge)) in
  let alpha := if ends then 1%float
               else Math_max 0.3 (Math_abs (corr edge)) in
  ∃ c' rest, drawEdge positions hoveredNode edge c = Ok (tt, c')
    ∧ pixels c'
      = pixels c
        ++ Stroked [MoveTo (x pu) (y pu); LineTo (x pv) (y pv)]
             (rgba 88 166 255 alpha) (if ends then 3%float else 2%float)
           :: rest
    ∧ (alpha <? 0.3)%float = false.
Proof.
  intros Hne Hu Hv Hfin ends alpha.
  destruct (drawEdge_stroke positions hoveredNode edge pu pv c Hu Hv Hfin)
    as (c' & rest & Hrun & Hpx).
  assert (isHighlighted hoveredNode edge = ends) as Hhl.
  { apply eq_true_iff_eq. rewrite (isHighlighted_iff _ _ Hne).
    unfold ends. by rewrite bool_decide_eq_true. }
  destruct (edge_stroke_style hoveredNode edge) as [Hon Hoff].
  exists c', rest. split; [done|].
  unfold alpha. destruct ends.
  - destruct (Hon Hhl) as [Ha Hw]. rewrite Hpx, Ha, Hw. done.
  - destruct (Hoff Hhl) as (Ha & Hw & Hfloor & _).
    rewrite Hpx, Hw. rewrite <- Ha. done.
Qed.

(** On the demo graph with C hovered, the edge B-C is highlighted. *)
Lemma X5_witness :
  ∃ c' rest,
    drawEdge (H := Demo.runtime) (graphPositions Demo.view) (Some "C"%string)
      {| u := "B"; v := "C"; corr := -0.6; distance := num 0.5 |} Demo.canvas
    = Ok (tt, c')
    ∧ pixels c'
      = pixels Demo.canvas
        ++ Stroked [MoveTo 312.5 401.55444566227675;
                    LineTo 312.49999999999994 98.44555433772328]
             (rgba 88 166 255 1) 3 :: rest.
Proof.
  destruct (X5_edge_highlight (H := Demo.runtime) (graphPositions Demo.view)
              (Some "C"%string)
              {| u := "B"; v := "C"; corr := -0.6; distance := num 0.5 |}
              {| x := 312.5; y := 401.55444566227675 |}
              {| x := 312.49999999999994; y := 98.44555433772328 |}
              Demo.canvas)
    as (c' & rest & Hrun & Hpx & _).
  - discriminate.
  - vm_compute. reflexivity.
  - vm_compute. reflexivity.
  - vm_compute. reflexivity.
  - exists c', rest. split; [exact Hrun|exact Hpx].
Defined.

Lemma Draw_bind_cong {A B} (m m' : Draw A) (k k' : A → Draw B) (c : Canvas) :
  m c = m' c → (∀ a c', k a c' = k' a c') → (m ≫= k) c = (m' ≫= k') c.
Proof.
  intros Hm Hk. unfold mbind, Draw_bind. rewrite Hm.
  destruct (m' c) as [[a c']|]; [apply Hk|done].
Qed.

Lemma forEach_cong {A} (f g : A → Draw unit) (l : list A) (c : Canvas) :
  (∀ a c', f a c' = g a c') → forEach f l c = forEach g l c.
Proof.
  intros Hfg. revert c. induction l as [|a l IH]; intros c; [done|].
  cbn [forEach]. apply Draw_bind_cong; [apply Hfg|intros [] c'; apply IH].
Qed.

Lemma forEach_drawEdge_positioned `{Runtime} positions hoveredNode edges c :
  forEach (drawEdge positions hoveredNode) edges c
  = forEach (drawEdge positions hoveredNode)
      (List.filter (positioned positions) edges) c.
Proof.
  revert c. induction edges as [|edge edges IH]; intros c; [done|].
  cbn [List.filter forEach]. unfold positioned at 1.
  destruct (drawEdge_cases positions hoveredNode edge)
    as [[-> Hskip]|(pu & pv & -> & _ & _ & _)].
  - rewrite <- IH, Hskip. done.
  - cbn [forEach]. unfold mbind, Draw_bind.
    destruct (drawEdge positions hoveredNode edge c) as [[[] c']|]; [|done].
    apply IH.
Qed.

Lemma ToBoolean_inherited positions name :
  is_Some (positions !! name) ∨ name ∈ Object_prototype →
  ToBoolean (readPosition positions name) = true.
Proof.
  unfold readPosition. intros [[pos ->]|Hin]; [done|].
  destruct (positions !! name); [done|]. by rewrite bool_decide_eq_true_2.
Qed.

Lemma ToBoolean_unplaced positions name :
  positions !! name = None → name ∉ Object_prototype →
  name ≠ "x"%string → name ≠ "y"%string →
  ToBoolean (readPosition positions name) = false.
Proof.
  intros Hnone Hnot Hx Hy.
  assert (readPosition positions name = Undefined) as ->; [|done].
  apply readPosition_Undefined. split_and!; try done. by intros [?|?].
Qed.

(** X6.  The edges that fail the test [u && v] leave no trace: a
    repaint is the repaint of the data without them, on every canvas and
    whether it throws or not.  An edge fails the test when an endpoint has
    no position and names nothing [graphPositions] inherits (no member of
    [Object.prototype], and not [x] or [y]).  It passes, and is not
    skipped, when each endpoint has a position or is the name of a member
    of [Object.prototype], such as [toString]. *)
Theorem X6_unpositioned_edges_ignored `{Runtime} (data : StockData)
    (positions : gmap string Point) (nodes : list string)
    (hoveredNode : option string) (c : Canvas) :
  redrawGraph data positions nodes hoveredNode c
  = redrawGraph
      {| recommendations := recommendations data;
         mstEdges := List.filter (positioned positions) (mstEdges data) |}
      positions nodes hoveredNode c
  ∧ (∀ edge name, u edge = name ∨ v edge = name →
       positions !! name = None → name ∉ Object_prototype →
       name ≠ "x"%string → name ≠ "y"%string →
       positioned positions edge = false)
  ∧ (∀ edge,
       is_Some (positions !! u edge) ∨ u edge ∈ Object_prototype →
       is_Some (positions !! v edge) ∨ v edge ∈ Object_prototype →
       positioned positions edge = true).
Proof.
  split_and!.
  - unfold redrawGraph. cbn [mstEdges recommendations].
    apply Draw_bind_cong; [done|intros [] c1].
    apply Draw_bind_cong; [apply forEach_drawEdge_positioned|intros [] c2].
    apply Draw_bind_cong; [|done].
    apply forEach_cong. intros node c0. done.
  - intros edge name Hname Hnone Hnot Hx Hy. unfold positioned.
    destruct Hname as [->| ->];
      rewrite (ToBoolean_unplaced _ _ Hnone Hnot Hx Hy);
      by rewrite ?andb_false_r.
  - intros edge Hu Hv. unfold positioned.
    by rewrite (ToBoolean_inherited _ _ Hu), (ToBoolean_inherited _ _ Hv).
Qed.

(** ** The order of the paints *)

Lemma appends_forEach {A} (P : Paint → bool) (body : A → Draw unit)
    (l : list A) :
  (∀ a, appends P (body a)) → appends P (forEach body l).
Proof.
  intros Hbody. induction l as [|a l IH]; intros c c'.
  - intros [= <-]. exists []. by rewrite app_nil_r.
  - cbn [forEach]. unfold mbind, Draw_bind.
    destruct (body a c) as [[[] c1]|] eqn:Ha; [|done]. intros Hl.
    destruct (Hbody a c c1 Ha) as (l1 & Hp1 & Hl1).
    destruct (IH c1 c' Hl) as (l2 & Hp2 & Hl2).
    exists (l1 ++ l2). rewrite Hp2, Hp1, app_assoc. split; [done|].
    by apply Forall_app.
Qed.

Section paint_order.
Context `{Runtime}.

Lemma drawEdge_appends positions hoveredNode edge :
  appends edgePaint (drawEdge positions hoveredNode edge).
Proof.
  intros [w h [] sv p px] c'.
  destruct (drawEdge_cases positions hoveredNode edge)
    as [[_ ->]|(pu & pv & _ & _ & _ & ->)].
  { intros [= <-]. exists []. by rewrite app_nil_r. }
  unfold strokeEdge, drawEdgeLabel. unfold set_strokeStyle at 1.
  destruct (valid_style _); destruct (negb (isNaN (weightValue edge)));
    run_draw; intros [= <-]; cbn [pixels]; rewrite <- ?app_assoc;
    eexists; (split; [reflexivity|]); repeat constructor.
Qed.

Lemma drawNode_appends data positions hoveredNode node :
  appends nodePaint (drawNode data positions hoveredNode node).
Proof.
  intros [w h [] sv p px] c'. unfold drawNode, drawNodeInfo.
  destruct (coordinates (readPosition positions node)) as [pos|];
    [|by run_draw].
  destruct (List.find _ _) as [stock|];
    destruct (strict_eq hoveredNode (Some node));
    run_draw; intros [= <-]; cbn [pixels]; rewrite <- ?app_assoc;
    eexists; (split; [reflexivity|]); repeat constructor.
Qed.

Lemma drawNode_baseline data positions hoveredNode node c c' :
  drawNode data positions hoveredNode node c = Ok (tt, c') →
  textBaseline (state c') = "middle"%string.
Proof.
  destruct c as [w h [] sv p px]. unfold drawNode, drawNodeInfo.
  destruct (coordinates (readPosition positions node)) as [pos|];
    [|by run_draw].
  destruct (List.find _ _) as [stock|];
    destruct (strict_eq hoveredNode (Some node));
    run_draw; intros [= <-]; reflexivity.
Qed.

Lemma forEach_drawNode_baseline data positions hoveredNode nodes c c' :
  nodes ≠ [] →
  forEach (drawNode data positions hoveredNode) nodes c = Ok (tt, c') →
  textBaseline (state c') = "middle"%string.
Proof.
  revert c. induction nodes as [|node nodes IH]; intros c Hne; [done|].
  cbn [forEach]. unfold mbind, Draw_bind.
  destruct (drawNode data positions hoveredNode node c) as [[[] c1]|] eqn:Hn;
    [|done].
  destruct nodes as [|node' nodes].
  - intros [= <-]. by eapply drawNode_baseline.
  - apply IH. done.
Qed.

Lemma drawLegend_paints c :
  ∃ c', drawLegend graphHeight c = Ok (tt, c')
    ∧ pixels c' = pixels c ++ legendPaints (textBaseline (state c)).
Proof.
  destruct c as [w h [] sv p px]. unfold drawLegend, graphHeight.
  eexists. run_draw. split; [reflexivity|].
  cbn [pixels]. rewrite <- !app_assoc. reflexivity.
Qed.

(** X7.  A repaint of the 800 by 500 canvas that returns leaves on it
    nothing painted earlier, and in this order: what the edge loop painted
    (lines between two points, label patches, labels), what the node loop
    painted (discs, outlines, text), and the six paints of the legend at
    their fixed places.  So no edge is painted over a node.  The legend
    text has the baseline in force, which is "middle" as soon as there is a
    node. *)
Theorem X7_paint_order data positions nodes hoveredNode (c c' : Canvas) :
  width c = graphWidth → height c = graphHeight →
  redrawGraph data positions nodes hoveredNode c = Ok (tt, c') →
  ∃ edgePaints nodePaints baseline,
    pixels c' = edgePaints ++ nodePaints ++ legendPaints baseline
    ∧ Forall (λ p, edgePaint p = true) edgePaints
    ∧ Forall (λ p, nodePaint p = true) nodePaints
    ∧ (nodes ≠ [] → baseline = "middle"%string).
Proof.
  intros Hw Hh. unfold redrawGraph, mbind, Draw_bind.
  destruct (clearRect 0 0 graphWidth graphHeight c) as [[[] c0]|] eqn:Hclear;
    [|done].
  assert (pixels c0 = []) as Hblank.
  { revert Hclear. unfold clearRect, modify, covers. intros [= <-].
    cbn [pixels]. by rewrite Hw, Hh. }
  destruct (forEach (drawEdge _ _) _ c0) as [[[] c1]|] eqn:Hedges; [|done].
  destruct (forEach (drawNode _ _ _) _ c1) as [[[] c2]|] eqn:Hnodes; [|done].
  intros Hlegend.
  destruct (appends_forEach edgePaint _ (mstEdges data)
              (drawEdge_appends positions hoveredNode) c0 c1 Hedges)
    as (es & Hes & HesP).
  destruct (appends_forEach nodePaint _ nodes
              (drawNode_appends data positions hoveredNode) c1 c2 Hnodes)
    as (ns & Hns & HnsP).
  destruct (drawLegend_paints c2) as (c3 & Hrun & Hpx).
  rewrite Hrun in Hlegend. injection Hlegend as <-.
  exists es, ns, (textBaseline (state c2)).
  rewrite Hpx, Hns, Hes, Hblank, <- app_assoc. split_and!; try done.
  intros Hne. by eapply forEach_drawNode_baseline.
Qed.

End paint_order.

(** The first repaint of the demo graph. *)
Lemma X7_witness :
  ∃ edgePaints nodePaints baseline,
    pixels Demo.canvas = edgePaints ++ nodePaints ++ legendPaints baseline
    ∧ Forall (λ p, edgePaint p = true) edgePaints
    ∧ Forall (λ p, nodePaint p = true) nodePaints
    ∧ (graphNodeList Demo.view ≠ [] → baseline = "middle"%string).
Proof.
  apply (X7_paint_order (H := Demo.runtime) Demo.data
           (graphPositions Demo.view) (graphNodeList Demo.view) None
           (createCanvas graphWidth graphHeight) Demo.canvas).
  - reflexivity.
  - reflexivity.
  - vm_compute. reflexivity.
Defined.

(** * When a repaint throws *)

Section throwing.
Context `{Runtime}.

Lemma forEach_drawEdge_returns positions hoveredNode edges c :
  ∃ c', forEach (drawEdge positions hoveredNode) edges c = Ok (tt, c').
Proof.
  destruct (preserves_forEach unrelated (drawEdge positions hoveredNode) edges
              (λ edge _, drawEdge_total positions hoveredNode edge) c c I)
    as (c' & _ & Hrun & _). by exists c'.
Qed.

Lemma drawNode_undefined data positions hoveredNode node c :
  readPosition positions node = Undefined →
  drawNode data positions hoveredNode node c = TypeError.
Proof.
  intros Hpos. unfold drawNode. rewrite Hpos. by run_draw.
Qed.

Lemma drawNode_returns data positions hoveredNode node :
  readPosition positions node ≠ Undefined →
  preserves unrelated unrelated (drawNode data positions hoveredNode node).
Proof.
  intros Hpos. unfold drawNode, drawNodeInfo, unrelated.
  destruct (coordinates (readPosition positions node)) as [pos|] eqn:Hc;
    [|by apply coordinates_None in Hc].
  destruct (List.find _ _) as [stock|];
    [destruct (strict_eq hoveredNode (Some node))|]; solve_preserves.
Qed.

Lemma forEach_drawNode_throws data positions hoveredNode nodes c :
  Exists (λ node, readPosition positions node = Undefined) nodes →
  forEach (drawNode data positions hoveredNode) nodes c = TypeError.
Proof.
  intros Hex. revert c. induction Hex as [node nodes Hnode|node nodes _ IH];
    intros c; cbn [forEach]; unfold mbind, Draw_bind.
  - by rewrite drawNode_undefined.
  - destruct (drawNode data positions hoveredNode node c) as [[[] c']|];
      [apply IH|done].
Qed.

(** X8.  A repaint throws exactly when [graphPositions[node]] is
    [undefined] for a node of the list: the node has no position and names
    nothing the object inherits, that is no member of [Object.prototype]
    and, when a position sits under [__proto__], neither [x] nor [y].  The
    edges, the hovered node and the canvas do not matter, and an edge never
    makes it throw.  When it returns, the canvas has its size and its stack
    of saved states as before. *)
Theorem X8_repaint_throws_iff (data : StockData)
    (positions : gmap string Point) (nodes : list string)
    (hoveredNode : option string) (c : Canvas) :
  (redrawGraph data positions nodes hoveredNode c = TypeError
   ↔ ∃ node, node ∈ nodes ∧ positions !! node = None
       ∧ (node ∉ Object_prototype)
       ∧ (node = "x"%string ∨ node = "y"%string →
          positions !! "__proto__"%string = None))
  ∧ (∀ c', redrawGraph data positions nodes hoveredNode c = Ok (tt, c') →
       width c' = width c ∧ height c' = height c ∧ saved c' = saved c).
Proof.
  destruct (decide (Forall (λ node, is_Some (coordinates
                                              (readPosition positions node)))
                      nodes)) as [Hall|Hnot].
  - rewrite Forall_forall in Hall.
    assert (∀ node, node ∈ nodes → readPosition positions node ≠ Undefined)
      as Hdef.
    { intros node Hin Hu. destruct (Hall node Hin) as [pos Hpos].
      apply coordinates_None in Hu. congruence. }
    assert (preserves unrelated unrelated
              (redrawGraph data positions nodes hoveredNode)) as Hp.
    { unfold redrawGraph.
      eapply preserves_seq; [apply clearRect_total|].
      eapply preserves_seq;
        [apply preserves_forEach; intros; apply drawEdge_total|].
      eapply preserves_seq; [|apply drawLegend_total].
      apply preserves_forEach. intros node Hnode.
      by apply drawNode_returns, Hdef. }
    destruct (Hp c c I) as (c' & _ & Hrun & _ & _ & Hf & _).
    rewrite Hrun. split.
    + split; [done|]. intros (node & Hin & Hnone).
      destruct (Hdef node Hin). by apply readPosition_Undefined.
    + by intros ? [= <-].
  - apply not_Forall_Exists in Hnot; [|apply _].
    assert (Exists (λ node, readPosition positions node = Undefined) nodes)
      as Hex.
    { eapply Exists_impl; [exact Hnot|]. intros node Hnode. simpl in Hnode.
      apply coordinates_None. by apply eq_None_not_Some. }
    assert (redrawGraph data positions nodes hoveredNode c = TypeError)
      as Hthrow.
    { unfold redrawGraph, mbind, Draw_bind.
      destruct (clearRect 0 0 graphWidth graphHeight c) as [[[] c0]|];
        [|done].
      destruct (forEach_drawEdge_returns positions hoveredNode
                  (mstEdges data) c0) as (c1 & ->).
      by rewrite forEach_drawNode_throws. }
    rewrite Hthrow. split; [|done]. split; [|done]. intros _.
    apply Exists_exists in Hex as (node & Hin & Hnone).
    exists node. split; [done|]. by apply readPosition_Undefined.
Qed.

(** X9.  What the node loop paints for a node that has a position: a
    disc of radius 20 when the node is the hovered one and 15 otherwise, in
    the colour of its recommendation (that of HOLD when it has none); the
    outline of the same circle; the name without its first [.NS], 30 above
    the centre.  Exactly when the node is hovered and has a recommendation
    two more texts follow, in grey and 10px: the momentum in percent to two
    decimals with a plus sign unless it is negative, 35 below the centre,
    and the label, 48 below. *)
Theorem X9_node_appearance (data : StockData)
    (positions : gmap string Point) (hoveredNode : option string)
    (node : string) (pos : Point) (c : Canvas) :
  positions !! node = Some pos →
  let stock :=
    List.find (λ s, String.eqb (ticker s) node) (recommendations data) in
  let hovered := bool_decide (hoveredNode = Some node) in
  let circle := [Arc (x pos) (y pos) (if hovered then 20 else 15) 0
                   (2 * Math_PI)%float] in
  let info :=
    match stock with
    | Some stock =>
        if hovered then
          [FilledText
             ((if (0 <=? momentum stock)%float then "+" else "")
              +:+ toFixed (momentum stock * 100)%float 2 +:+ "%")
             (x pos) (y pos + 35)%float
             (css "#8b949e") (Segoe "10px") "center" "middle";
           FilledText (label stock) (x pos) (y pos + 48)%float
             (css "#8b949e") (Segoe "10px") "center" "middle"]
        else []
    | None => []
    end in
  ∃ c',
    drawNode data positions hoveredNode node c = Ok (tt, c')
    ∧ pixels c'
      = pixels c
        ++ [Filled circle
              (css (nodeColor (from_option label "HOLD"%string stock)));
            Stroked circle (css (if hovered then "#58a6ff" else "#161b22"))
              (if hovered then 3 else 2);
            FilledText (String_replace ".NS" "" node)
              (x pos) (y pos - 30)%float
              (css (if hovered then "#58a6ff" else "#e6edf3"))
              (if hovered then Segoe "bold 13px" else Segoe "12px")
              "center" "middle"]
        ++ info.
Proof.
  intros Hpos. cbv zeta. destruct c as [w h [] sv p px].
  unfold drawNode, drawNodeInfo, strict_eq.
  rewrite (coordinates_own _ _ _ Hpos).
  destruct (List.find _ _) as [stock|];
    destruct (bool_decide (hoveredNode = Some node));
    eexists; run_draw; (split; [reflexivity|]); cbn [pixels];
    rewrite <- ?app_assoc; cbn [app from_option]; reflexivity.
Qed.

End throwing.

(** The demo graph: node C, hovered, is to be avoided and lost 3%. *)
Lemma X9_witness :
  ∃ c',
    drawNode (H := Demo.runtime) Demo.data (graphPositions Demo.view)
      (Some "C"%string) "C" Demo.canvas = Ok (tt, c')
    ∧ drop (length (pixels Demo.canvas) + 3) (pixels c')
      = [FilledText "-3.00%" 312.49999999999994 133.44555433772328
           (css "#8b949e") (Segoe "10px") "center" "middle";
         FilledText "AVOID" 312.49999999999994 146.44555433772328
           (css "#8b949e") (Segoe "10px") "center" "middle"].
Proof.
  destruct (X9_node_appearance (H := Demo.runtime) Demo.data
              (graphPositions Demo.view) (Some "C"%string) "C"
              {| x := 312.49999999999994; y := 98.44555433772328 |}
              Demo.canvas)
    as (c' & Hrun & Hpx).
  - vm_compute. reflexivity.
  - exists c'. split; [exact Hrun|]. rewrite Hpx.
    vm_compute. reflexivity.
Defined.

(** * White space *)

(** The cases of [strip]: a character of one, two or three bytes is
    removed, or the string has no white space in front and stays. *)
Lemma strip_cases (back : bool)
    (P : list Ascii.ascii → list Ascii.ascii → Prop) :
  (∀ a s1, space1 a = true → P s1 (strip back s1) →
     P (a :: s1) (strip back s1)) →
  (∀ a b s2, (if back then space2 b a else space2 a b) = true →
     P s2 (strip back s2) → P (a :: b :: s2) (strip back s2)) →
  (∀ a b c s3, (if back then space3 c b a else space3 a b c) = true →
     P s3 (strip back s3) → P (a :: b :: c :: s3) (strip back s3)) →
  (∀ s, lead back s = false → P s s) →
  ∀ s, P s (strip back s).
Proof.
  intros H1 H2 H3 Hclean s.
  induction s as [s IH] using (induction_ltof1 _ (@length _)).
  unfold ltof in IH.
  destruct s as [|a s1]; [by apply Hclean|].
  change (strip back (a :: s1))
    with (if space1 a then strip back s1
          else match s1 with
               | [] => a :: s1
               | b :: s2 =>
                   if (if back then space2 b a else space2 a b)
                   then strip back s2
                   else match s2 with
                        | [] => a :: s1
                        | c :: s3 =>
                            if (if back then space3 c b a
                                else space3 a b c)
                            then strip back s3 else a :: s1
                        end
               end).
  destruct (space1 a) eqn:Ha; [apply H1; [done|apply IH; simpl; lia]|].
  destruct s1 as [|b s2]; [apply Hclean; simpl; by rewrite Ha|].
  destruct (if back then space2 b a else space2 a b) eqn:Hab;
    [apply H2; [done|apply IH; simpl; lia]|].
  destruct s2 as [|c s3]; [apply Hclean; simpl; by rewrite Ha, Hab|].
  destruct (if back then space3 c b a else space3 a b c) eqn:Habc;
    [apply H3; [done|apply IH; simpl; lia]|].
  apply Hclean. simpl. by rewrite Ha, Hab, Habc.
Qed.

Lemma strip_suffix back s : strip back s `suffix_of` s.
Proof.
  apply (strip_cases back (λ s r, r `suffix_of` s)).
  - intros a s1 _ Hs. by apply suffix_cons_r.
  - intros a b s2 _ Hs. by do 2 apply suffix_cons_r.
  - intros a b c s3 _ Hs. by do 3 apply suffix_cons_r.
  - done.
Qed.

Lemma strip_clean back s : lead back s = false → strip back s = s.
Proof.
  destruct s as [|a [|b [|c s3]]]; simpl; try done.
  - by intros ->%orb_false_elim%proj1.
  - intros [-> [-> _]%orb_false_elim]%orb_false_elim. done.
  - intros [-> [-> ->]%orb_false_elim]%orb_false_elim. done.
Qed.

Lemma strip_lead back s : lead back (strip back s) = false.
Proof. by apply (strip_cases back (λ _ r, lead back r = false)). Qed.

Lemma lead_prefix back p s :
  p `prefix_of` s → lead back s = false → lead back p = false.
Proof.
  intros [q ->].
  destruct p as [|a [|b [|c p3]]]; simpl; try done.
  - by intros [-> _]%orb_false_elim.
  - by intros [-> [-> _]%orb_false_elim]%orb_false_elim.
Qed.

Lemma String_trim_bytes (s : string) :
  String.list_ascii_of_string (String_trim s)
  = rev (strip true (rev (strip false (String.list_ascii_of_string s)))).
Proof.
  unfold String_trim. apply String.list_ascii_of_string_of_list_ascii.
Qed.

Lemma String_trim_idemp (s : string) :
  String_trim (String_trim s) = String_trim s.
Proof.
  unfold String_trim at 1. rewrite String_trim_bytes.
  set (t := strip false (String.list_ascii_of_string s)).
  set (r := strip true (rev t)).
  assert (strip false (rev r) = rev r) as ->.
  { apply strip_clean, (lead_prefix _ _ t); [|apply strip_lead].
    destruct (strip_suffix true (rev t)) as [k Hk]. fold r in Hk.
    exists (rev k). by rewrite <- rev_app_distr, <- Hk, rev_involutive. }
  rewrite rev_involutive.
  rewrite (strip_clean true r) by apply strip_lead.
  done.
Qed.

Lemma cell_trimmed values index :
  String_trim (cell values index) = cell values index.
Proof.
  assert (String_trim EmptyString = EmptyString) as Hempty by done.
  unfold cell. destruct (values !! index) as [value|]; simpl; [|done].
  destruct (negb _); [|done]. apply String_trim_idemp.
Qed.

Lemma fillRow_trimmed headers index values (obj : Row) :
  map_Forall (λ _ value, String_trim value = value) obj →
  map_Forall (λ _ value, String_trim value = value)
    (fillRow headers index values obj).
Proof.
  revert index obj. induction headers as [|header rest IH];
    intros index obj Hobj; [done|].
  cbn [fillRow]. apply IH. unfold Object_set.
  destruct (String.eqb header "__proto__"); [done|].
  apply map_Forall_insert_2; [apply cell_trimmed|done].
Qed.

(** X10.  Nothing [parseCSV] returns has white space around it:
    trimming a header, or the value of a property of a row, changes
    nothing.  This rests on [trim] being idempotent for the white space of
    the language, which takes one, two or three bytes. *)
Theorem X10_parseCSV_trimmed (text : string) :
  (∀ s, String_trim (String_trim s) = String_trim s)
  ∧ Forall (λ header, String_trim header = header)
      (CSV.headers (parseCSV text))
  ∧ Forall (map_Forall (λ _ value, String_trim value = value))
      (CSV.data (parseCSV text)).
Proof.
  split; [apply String_trim_idemp|].
  unfold parseCSV. destruct (nonBlankLines text) as [|first rest];
    [by split|].
  cbn [CSV.headers CSV.data]. split.
  - apply Forall_fmap, Forall_forall. intros field _. simpl.
    apply String_trim_idemp.
  - apply Forall_fmap, Forall_forall. intros line _. simpl.
    apply fillRow_trimmed, map_Forall_empty.
Qed.

(** * The data files *)

Lemma Object_set_lookup (obj : Row) (key value name : string) :
  Object_set obj key value !! name
  = if bool_decide (key = name ∧ key ≠ "__proto__"%string)
    then Some value else obj !! name.
Proof.
  unfold Object_set. destruct (String.eqb_spec key "__proto__") as [->|Hne].
  - rewrite bool_decide_eq_false_2; [done|]. naive_solver.
  - case_bool_decide as Hk.
    + destruct Hk as [-> _]. by rewrite lookup_insert_eq.
    + rewrite lookup_insert_ne; [done|]. naive_solver.
Qed.

Lemma fillRow_is_Some headers index values obj name :
  is_Some (fillRow headers index values obj !! name)
  ↔ is_Some (obj !! name) ∨ (name ∈ headers ∧ name ≠ "__proto__"%string).
Proof.
  revert index obj. induction headers as [|header rest IH]; intros index obj.
  - simpl. rewrite elem_of_nil. tauto.
  - cbn [fillRow]. rewrite IH, Object_set_lookup, elem_of_cons.
    case_bool_decide as Hk.
    + destruct Hk as [-> Hne]. split; [|by eauto]. intros _. right. tauto.
    + split.
      * intros [?|[? ?]]; tauto.
      * intros [?|[[->|?] ?]]; [tauto| |tauto].
        destruct Hk. split; [done|]. done.
Qed.

Lemma fillRow_lookup headers index values obj j name :
  headers !! j = Some name → name ≠ "__proto__"%string →
  (∀ k, j < k → headers !! k ≠ Some name) →
  fillRow headers index values obj !! name = Some (cell values (index + j)).
Proof.
  revert index obj j. induction headers as [|header rest IH];
    intros index obj j Hj Hne Hlast; [done|].
  cbn [fillRow]. destruct j as [|j].
  - simpl in Hj. injection Hj as ->.
    assert (name ∉ rest) as Hnot.
    { intros (k & Hk)%list_elem_of_lookup_1. apply (Hlast (S k)); [lia|done]. }
    assert (∀ (obj' : Row) i v, obj' !! name = Some v →
              fillRow rest i values obj' !! name = Some v) as Hkeep.
    { clear IH Hlast. induction rest as [|h rest IH]; intros obj' i v Hv;
        [done|].
      cbn [fillRow]. apply IH.
      - intros Hin. apply Hnot. by right.
      - rewrite Object_set_lookup. case_bool_decide as Hk; [|done].
        destruct Hk as [-> _]. destruct Hnot. by left. }
    apply Hkeep. rewrite Object_set_lookup, bool_decide_eq_true_2; [|done].
    by rewrite Nat.add_0_r.
  - simpl in Hj. rewrite (IH (S index) _ j Hj Hne).
    + f_equal. f_equal. lia.
    + intros k Hk. apply (Hlast (S k)). lia.
Qed.

Lemma cell_missing values index :
  length values ≤ index → cell values index = EmptyString.
Proof.
  intros Hlen. unfold cell. by rewrite (lookup_ge_None_2 values index Hlen).
Qed.

(** X11.  What [parseCSV] returns for any text.  Text of white space
    alone gives no headers and no rows.  Otherwise there is one row for each
    non-blank line after the first; the properties of a row are the headers,
    except a header [__proto__], which no row has; under a header the row
    holds the trimmed field of its line at the last position of that
    header, and the empty string where the line has no such field. *)
Theorem X11_parseCSV_rows (text : string) :
  let table := parseCSV text in
  (String_trim text = EmptyString →
   table = {| CSV.headers := []; CSV.data := [] |})
  ∧ length (CSV.data table) = length (nonBlankLines text) - 1
  ∧ ∀ i line, nonBlankLines text !! S i = Some line →
      ∃ row, CSV.data table !! i = Some row
        ∧ (∀ name, is_Some (row !! name)
                   ↔ name ∈ CSV.headers table ∧ name ≠ "__proto__"%string)
        ∧ (∀ j name, CSV.headers table !! j = Some name →
             name ≠ "__proto__"%string →
             (∀ k, j < k → CSV.headers table !! k ≠ Some name) →
             row !! name = Some (cell (String_split comma line) j)
             ∧ (length (String_split comma line) ≤ j →
                row !! name = Some EmptyString)).
Proof.
  cbv zeta. unfold parseCSV. split_and!.
  - intros Hblank. unfold nonBlankLines. rewrite Hblank. done.
  - destruct (nonBlankLines text) as [|first rest]; [done|].
    simpl. rewrite length_fmap. lia.
  - intros i line Hline.
    destruct (nonBlankLines text) as [|first rest]; [done|].
    simpl in Hline. cbn [CSV.data CSV.headers].
    exists (fillRow (String_trim <$> String_split comma first) 0
              (String_split comma line) ∅).
    split; [by rewrite list_lookup_fmap, Hline|]. split.
    + intros name. rewrite fillRow_is_Some.
      rewrite lookup_empty, is_Some_alt. tauto.
    + intros j name Hj Hne Hlast.
      rewrite (fillRow_lookup _ 0 _ _ j name Hj Hne Hlast).
      split; [done|]. intros Hlen. by rewrite cell_missing.
Qed.

(** * From the edge file to the graph *)

Lemma or_zero_not_nan (n : float) : is_nan (or_zero n) = false.
Proof.
  unfold or_zero. destruct (is_nan n) eqn:Hn; [done|]. simpl.
  by destruct (n =? 0)%float.
Qed.

Lemma parseCSV_row_names (text : string) (row : Row) (name : string) :
  row ∈ CSV.data (parseCSV text) →
  is_Some (Object_get row name)
  ↔ name ∈ CSV.headers (parseCSV text) ∧ name ≠ "__proto__"%string.
Proof.
  unfold parseCSV. destruct (nonBlankLines text) as [|first rest].
  - cbn [CSV.data]. by intros ?%elem_of_nil.
  - cbn [CSV.data CSV.headers]. intros (line & -> & _)%list_elem_of_fmap.
    unfold Object_get. rewrite fillRow_is_Some, lookup_empty, is_Some_alt.
    tauto.
Qed.

Lemma graphEdge_weightValue (loaded : Loaded.edge) (edge : Edge) :
  graphEdge loaded = Some edge →
  is_nan (Loaded.distance loaded) = false →
  weightValue edge
  = num (if (Loaded.distance loaded =? 0)%float then Loaded.corr loaded
         else Loaded.distance loaded).
Proof.
  unfold graphEdge. destruct (Loaded.u loaded), (Loaded.v loaded); try done.
  intros [= <-] Hn. unfold weightValue, isNaN, strict_ne_zero. simpl.
  rewrite Hn. simpl. by destruct (Loaded.distance loaded =? 0)%float.
Qed.

Section loading.
Context `{Runtime}.
Variable parseFloat : string → float.

Lemma loadEdge_weightValue (row : Row) (edge : Edge) :
  graphEdge (loadEdge parseFloat row) = Some edge →
  let loaded := loadEdge parseFloat row in
  let weight := if (Loaded.distance loaded =? 0)%float
                then Loaded.corr loaded else Loaded.distance loaded in
  weightValue edge = num weight ∧ is_nan weight = false.
Proof.
  intros Hedge. cbv zeta. split.
  - apply graphEdge_weightValue; [done|]. apply or_zero_not_nan.
  - destruct (_ =? 0)%float; apply or_zero_not_nan.
Qed.

(** X12.  From the text of an edge file to the graph.  When the first
    non-blank line names the columns [u] and [v] and a data line follows,
    every loaded edge has strings as endpoints, there is one edge for each
    data line, [drawMSTGraph] builds the graph from them and returns, and
    no edge has NaN as its label value, whatever [parseFloat] makes of the
    fields: each edge gets a label. *)
Theorem X12_edge_file_builds_graph (text : string)
    (recommendations : list Recommendation) :
  let table := parseCSV text in
  "u"%string ∈ CSV.headers table → "v"%string ∈ CSV.headers table →
  CSV.data table ≠ [] →
  ∃ edges st,
    mapM graphEdge (loadMstEdges parseFloat (Some table) []) = Some edges
    ∧ length edges = length (CSV.data table)
    ∧ drawMSTGraph true {| recommendations := recommendations;
                           mstEdges := edges |} initialView = Ok st
    ∧ Built st
    ∧ graphNodeList st = collectNodes edges
    ∧ Forall (λ edge, isNaN (weightValue edge) = false) edges.
Proof.
  cbv zeta. intros Hu Hv Hdata. unfold loadMstEdges.
  destruct (CSV.data (parseCSV text)) as [|row rows] eqn:Hrows; [done|].
  rewrite <- Hrows. replace (0 <? length _)%nat with true
    by (rewrite Hrows; done).
  assert (Forall (λ row, is_Some (graphEdge (loadEdge parseFloat row)))
            (CSV.data (parseCSV text))) as Hall.
  { apply Forall_forall. intros r Hr.
    destruct (proj2 (parseCSV_row_names text r "u" Hr)) as [u Hru]; [done|].
    destruct (proj2 (parseCSV_row_names text r "v" Hr)) as [v Hrv]; [done|].
    unfold graphEdge, loadEdge. cbn [Loaded.u Loaded.v]. rewrite Hru, Hrv.
    by eexists. }
  destruct (mapM graphEdge (loadEdge parseFloat <$> CSV.data (parseCSV text)))
    as [edges|] eqn:Hedges.
  2:{ exfalso. apply eq_None_not_Some in Hedges. apply Hedges, mapM_is_Some.
      by apply Forall_fmap. }
  pose proof (length_mapM _ _ _ Hedges) as Hlen. rewrite length_fmap in Hlen.
  assert (edges ≠ []) as Hne.
  { intros ->. rewrite Hrows in Hlen. done. }
  destruct (drawMSTGraph_builds
              {| recommendations := recommendations; mstEdges := edges |}
              initialView Hne) as (st & Hrun & Hb & Hn & _).
  exists edges, st. split_and!; try done.
  apply mapM_Some in Hedges. apply Forall_forall. intros edge Hedge.
  apply list_elem_of_lookup_1 in Hedge as [i Hi].
  destruct (Forall2_lookup_r _ _ _ _ _ Hedges Hi) as (loaded & Hl & Hg).
  apply list_lookup_fmap_Some in Hl as (r & -> & _).
  destruct (loadEdge_weightValue r edge Hg) as [Hw Hnan].
  unfold isNaN. rewrite Hw. exact Hnan.
Qed.

End loading.

(** The demo file: two edges, three nodes. *)
Lemma X12_witness :
  ∃ edges st,
    mapM graphEdge
      (loadMstEdges DemoFile.parseFloat (Some (parseCSV DemoFile.text)) [])
    = Some edges
    ∧ length edges = 2
    ∧ drawMSTGraph (H := Demo.runtime) true
        {| recommendations := []; mstEdges := edges |} initialView = Ok st
    ∧ graphNodeList st = collectNodes edges.
Proof.
  destruct (X12_edge_file_builds_graph (H := Demo.runtime) DemoFile.parseFloat
              DemoFile.text [])
    as (edges & st & Hload & Hlen & Hrun & _ & Hnodes & _).
  - vm_compute. set_solver.
  - vm_compute. set_solver.
  - vm_compute. discriminate.
  - exists edges, st. split; [exact Hload|]. split; [exact Hlen|].
    split; [exact Hrun|exact Hnodes].
Defined.

(** X13.  The label of an edge read from a file.  Such an edge, when
    both endpoints are placed, is drawn as a line, a patch and a label at
    the midpoint, in this order.  The label is the distance to two decimals,
    or the correlation when the distance field is missing, no number or
    zero; it is never omitted.  The font, fill colour and alignment of the
    label are gone when the edge is done: they are as before it. *)
Theorem X13_loaded_edge_label `{Runtime} (parseFloat : string → float)
    (row : Row) (edge : Edge) (positions : gmap string Point)
    (hoveredNode : option string) (pu pv : Point) (c : Canvas) :
  graphEdge (loadEdge parseFloat row) = Some edge →
  positions !! u edge = Some pu → positions !! v edge = Some pv →
  let loaded := loadEdge parseFloat row in
  let weight := if (Loaded.distance loaded =? 0)%float
                then Loaded.corr loaded else Loaded.distance loaded in
  ∃ c' line patch,
    drawEdge positions hoveredNode edge c = Ok (tt, c')
    ∧ pixels c'
      = pixels c
        ++ [line; patch;
            FilledText (toFixed weight 2)
              ((x pu + x pv) / 2)%float ((y pu + y pv) / 2)%float
              (css (if isHighlighted hoveredNode edge
                    then "#58a6ff" else "#8b949e"))
              (Segoe "10px") "center" "middle"]
    ∧ fillStyle (state c') = fillStyle (state c)
    ∧ font (state c') = font (state c)
    ∧ textAlign (state c') = textAlign (state c)
    ∧ textBaseline (state c') = textBaseline (state c)
    ∧ saved c' = saved c.
Proof.
  intros Hedge Hu Hv. cbv zeta.
  destruct (loadEdge_weightValue parseFloat row edge Hedge) as [Hw Hnan].
  cbv zeta in Hw, Hnan. revert Hw Hnan.
  generalize (if (Loaded.distance (loadEdge parseFloat row) =? 0)%float
              then Loaded.corr (loadEdge parseFloat row)
              else Loaded.distance (loadEdge parseFloat row)).
  intros weight Hw Hnan.
  destruct c as [w h [] sv p px].
  rewrite (drawEdge_own _ _ _ _ _ Hu Hv).
  unfold strokeEdge, drawEdgeLabel.
  unfold isNaN. rewrite Hw. cbn [ToNumber]. rewrite Hnan. cbn [negb].
  unfold set_strokeStyle at 1.
  destruct (valid_style _); eexists _, _, _; run_draw;
    (split; [reflexivity|]); cbn [pixels]; rewrite <- ?app_assoc;
    (split; [reflexivity|]); done.
Qed.

(** The first data line of the demo file, whose distance is 0.2. *)
Lemma X13_witness :
  ∃ c' line patch,
    drawEdge (H := Demo.runtime) (graphPositions Demo.view) None
      {| u := "A"; v := "B"; corr := 0.8; distance := num 0.2 |}
      Demo.canvas = Ok (tt, c')
    ∧ pixels c'
      = pixels Demo.canvas
        ++ [line; patch;
            FilledText "0.20" ((575 + 312.5) / 2)%float
              ((250 + 401.55444566227675) / 2)%float (css "#8b949e")
              (Segoe "10px") "center" "middle"].
Proof.
  destruct (X13_loaded_edge_label (H := Demo.runtime) DemoFile.parseFloat
              {[ "u" := "A"; "v" := "B"; "corr" := "0.8";
                 "distance" := "0.2" ]}%string
              {| u := "A"; v := "B"; corr := 0.8; distance := num 0.2 |}
              (graphPositions Demo.view) None
              {| x := 575; y := 250 |}
              {| x := 312.5; y := 401.55444566227675 |}
              Demo.canvas)
    as (c' & line & patch & Hrun & Hpx & _).
  - vm_compute. reflexivity.
  - vm_compute. reflexivity.
  - vm_compute. reflexivity.
  - exists c', line, patch. split; [exact Hrun|]. rewrite Hpx.
    vm_compute. reflexivity.
Defined.

(** * The price history *)

Section price_history.
Variable parseFloat : string → float.

Lemma pricePoint_valid line point :
  pricePoint parseFloat line = Some point → validPoint point.
Proof.
  unfold pricePoint.
  destruct (String_split comma line) as [|v0 [|v1 [|v2 [|v3 [|v4 rest]]]]];
    try done.
  cbv zeta. destruct (truthy _ && _) eqn:Hok; [|done]. intros [= <-].
  apply andb_true_iff in Hok as [Hdate Hclose].
  unfold validPoint. cbn [Price.date Price.close Price.high Price.low
                          Price.open].
  split_and!; try apply or_zero_not_nan.
  - unfold truthy in Hdate. apply negb_true_iff in Hdate.
    intros Heq. rewrite Heq in Hdate. done.
  - exact Hclose.
Qed.

Lemma collectPrices_omap lines priceData :
  collectPrices parseFloat lines priceData
  = priceData ++ omap (pricePoint parseFloat) lines.
Proof.
  revert priceData. induction lines as [|line rest IH]; intros priceData.
  - simpl. by rewrite app_nil_r.
  - cbn [collectPrices omap list_omap]. rewrite IH.
    destruct (pricePoint parseFloat line); [|done].
    by rewrite <- app_assoc.
Qed.

Lemma omap_length_le {A B} (f : A → option B) (l : list A) :
  length (omap f l) ≤ length l.
Proof.
  induction l as [|a l IH]; [done|]. cbn [omap list_omap].
  destruct (f a); simpl; lia.
Qed.

(** X14.  The points handed to the price chart.  The file needs four
    non-blank lines, and the first three are never data.  The points are
    between 1 and 130, no more than the data lines; they are the last ones
    the loop accepted, in the order of the file; each has a non-empty date
    and a closing price above zero, and none of its four prices is NaN. *)
Theorem X14_price_points (text : string) (points : list Price.t) :
  last6Months parseFloat text = Some points →
  let lines := nonBlankLines text in
  let accepted := omap (pricePoint parseFloat) (drop 3 lines) in
  4 ≤ length lines
  ∧ 1 ≤ length points ≤ 130
  ∧ length points ≤ length lines - 3
  ∧ points = drop (length accepted - 130) accepted
  ∧ Forall validPoint points.
Proof.
  unfold last6Months. cbv zeta.
  destruct (length (nonBlankLines text) <? 4)%nat eqn:Hlen; [done|].
  apply Nat.ltb_ge in Hlen. rewrite collectPrices_omap. simpl.
  set (accepted := omap _ _).
  destruct (length accepted =? 0)%nat eqn:Hacc; [done|].
  apply Nat.eqb_neq in Hacc. intros [= <-]. unfold slice_last.
  assert (length accepted ≤ length (nonBlankLines text) - 3) as Hle.
  { unfold accepted. etrans; [apply omap_length_le|]. rewrite length_drop. done. }
  rewrite length_drop. split_and!; try done; try lia.
  apply Forall_drop, Forall_forall. intros point Hin.
  apply list_elem_of_omap in Hin as (line & _ & Hpoint).
  by eapply pricePoint_valid.
Qed.

End price_history.

(** The demo price file: of its three data lines one is accepted. *)
Lemma X14_witness :
  let point := {| Price.date := "2024-01-01"; Price.close := 0.8;
                  Price.high := 0.8; Price.low := 0.2; Price.open := 0.2 |} in
  last6Months DemoFile.parseFloat DemoFile.prices = Some [point]
  ∧ length (nonBlankLines DemoFile.prices) = 6
  ∧ validPoint point.
Proof.
  cbv zeta.
  assert (last6Months DemoFile.parseFloat DemoFile.prices
          = Some [{| Price.date := "2024-01-01"; Price.close := 0.8;
                     Price.high := 0.8; Price.low := 0.2;
                     Price.open := 0.2 |}]) as Hrun.
  { vm_compute. reflexivity. }
  split; [exact Hrun|]. split; [vm_compute; reflexivity|].
  destruct (X14_price_points DemoFile.parseFloat DemoFile.prices _ Hrun)
    as (_ & _ & _ & _ & Hvalid).
  exact (Forall_inv Hvalid).
Defined.

(** * Examples *)

(** The scenario of the specification: three nodes in first-seen order;
    hovering at the position of C focuses C, repaints once more, strokes
    only the edge B-C at full opacity and width 3, and draws C enlarged
    with its momentum and label underneath. *)
Example scenario_hover_C :
  ∃ st c, onMouseMove (H := Demo.runtime) Demo.data Demo.fullRect
            {| clientX := 312.49999999999994; clientY := 98.44555433772328 |}
            Demo.view = Ok st
    ∧ graphNodeList st = ["A"; "B"; "C"]%string
    ∧ hoveredNode st = Some "C"%string
    ∧ calls st = [RedrawGraph; RedrawGraph]
    ∧ graphCanvas st = Some c
    ∧ (∃ line, pixels c !! 0 = Some (Stroked line (rgba 88 166 255 0.8) 2))
    ∧ (∃ line, pixels c !! 3 = Some (Stroked line (rgba 88 166 255 1) 3))
    ∧ (∃ circle, pixels c !! 12 = Some (Filled circle (css "#f85149")))
    ∧ (∃ a b c' d e f g,
         pixels c !! 15 = Some (FilledText "-3.00%" a b c' d e f)
         ∧ pixels c !! 16 = Some (FilledText "AVOID" a g c' d e f)).
Proof.
  eexists _, _. vm_compute. split_and!; try reflexivity; by repeat eexists.
Qed.

(** The same pointer on a canvas displayed at half size, 10 to the right
    and 20 down: the scale factors take it to the same node. *)
Example scenario_scaled_pointer :
  resolvedHit Demo.view Demo.halfRect
    {| clientX := 166.25; clientY := 69.22 |} = Some "C"%string.
Proof. by vm_compute. Qed.

(** [toFixed] rounds the binary64 value, not its decimal spelling. *)
Example toFixed_examples :
  (toFixed (H := Demo.runtime) 0.42 2, toFixed (H := Demo.runtime) 1.005 2,
   toFixed (H := Demo.runtime) (-0.03 * 100) 2,
   toFixed (H := Demo.runtime) 2.5 0, toFixed (H := Demo.runtime) (-0) 2)
  = ("0.42", "1.00", "-3.00", "3", "0.00")%string.
Proof. by vm_compute. Qed.

(** A correlation that is no finite number (the loader keeps what
    [parseFloat] reads from the text Infinity) gives no colour: the
    assignment is ignored and the line takes the stroke style left by
    whatever was drawn before, so the first repaint and the second differ. *)
Example repaint_with_infinite_correlation :
  let data := {| recommendations := [];
                 mstEdges := [ {| u := "A"; v := "B"; corr := infinity;
                                  distance := num 1 |} ] |} in
  ∃ st1 st2 c1 c2,
    drawMSTGraph (H := Demo.runtime) true data initialView = Ok st1
    ∧ callRedrawGraph (H := Demo.runtime) data st1 = Ok st2
    ∧ graphCanvas st1 = Some c1 ∧ graphCanvas st2 = Some c2
    ∧ pixels c1 !! 0
      = Some (Stroked [MoveTo 575 250; LineTo 225 250] (css "#000000") 2)
    ∧ pixels c2 !! 0
      = Some (Stroked [MoveTo 575 250; LineTo 225 250] (css "#161b22") 2).
Proof. eexists _, _, _, _. vm_compute. by split_and!. Qed.

(** Names that [graphPositions] inherits: with no position assigned,
    [toString] reads as a function, so an edge between two such names
    passes [u && v] and is drawn at coordinates that are NaN, and neither
    the node loop nor the hit test throws on such a node; a name like AAPL
    reads as [undefined], the edge is skipped and both loops throw. *)
Example inherited_names :
  let edge a b := {| u := a; v := b; corr := 0.5; distance := num 1 |} in
  let data a b := {| recommendations := []; mstEdges := [edge a b] |} in
  let c := createCanvas graphWidth graphHeight in
  (∃ c', forEach (drawEdge (H := Demo.runtime) ∅ None)
           [edge "toString" "valueOf"]%string c = Ok (tt, c')
         ∧ pixels c' !! 0
           = Some (Stroked [MoveTo nan nan; LineTo nan nan]
                     (rgba 88 166 255 0.5) 2))
  ∧ forEach (drawEdge (H := Demo.runtime) ∅ None)
      [edge "AAPL" "valueOf"]%string c = Ok (tt, c)
  ∧ findNode ∅ {| x := 0; y := 0 |} ["toString"]%string None = Ok None
  ∧ findNode ∅ {| x := 0; y := 0 |} ["AAPL"]%string None = TypeError
  ∧ (∃ c', redrawGraph (H := Demo.runtime) (data "toString" "valueOf")%string ∅
             ["toString"; "valueOf"]%string None c = Ok (tt, c'))
  ∧ redrawGraph (H := Demo.runtime) (data "AAPL" "MSFT")%string ∅
      ["AAPL"; "MSFT"]%string None c = TypeError.
Proof.
  cbv zeta. split; [|split; [|split; [|split; [|split]]]].
  - eexists. split; vm_compute; reflexivity.
  - vm_compute. reflexivity.
  - vm_compute. reflexivity.
  - vm_compute. reflexivity.
  - eexists. vm_compute. reflexivity.
  - vm_compute. reflexivity.
Qed.
